(** * The blog backend of the SvelteKit + Convex starter

    A shallow embedding of the [posts] functions of the hosted backend
    ([slugExists], [listPublished], [getBySlug], [listAll], [getById],
    [create], [update], [remove]) over the [posts] table of the schema, and
    of the [slugify] helper of the two admin editors.

    The handlers run against the document store of the hosted database.
    The store is not part of the repository; the operations the handlers
    call ([get], [insert], [patch], [delete], index range queries with
    [order], [first], [take] and [paginate]) are embedded in [Module Convex]
    after the contract its client library documents. *)

From Stdlib Require Import ZArith NArith.
From stdpp Require Import gmap strings list sorting.

Open Scope Z_scope.

(** ** Values *)

(** Document ids of the [posts] table ([Id<'posts'>], [v.id('posts')]). *)
Abbreviation Id := N (only parsing).

(** An argument validated by [v.number()]: an integral value, or any other
    double (a fraction, an infinity, NaN). *)
Inductive number :=
  | Int (z : Z)
  | NonInt.

(** A handler returns a value or throws [new Error(msg)]. *)
Inductive Result (A : Type) :=
  | Ok (a : A)
  | Throw (msg : string).
Arguments Ok {A} a.
Arguments Throw {A} msg.

#[global] Instance Result_bind : MBind Result := λ A B k r,
  match r with
  | Ok a => k a
  | Throw msg => Throw msg
  end.

(** ** The schema: [posts: defineTable({...})] *)

Record Post := {
  title : string;
  slug : string;
  content : string;
  excerpt : string;
  published : bool;
  publishedAt : option Z;
  createdAt : Z;
  updatedAt : Z;
  authorId : option string;
  tags : option (list string)
}.

(** A document as the database returns it ([Doc<'posts'>]): the fields of
    the schema and the two system fields. *)
Record Doc := {
  _id : Id;
  _creationTime : Z;
  fields : Post
}.

(** ** The document store *)

Module Convex.

(** The table maps each id to the creation time and the fields of its
    document; [next_id] is the id the next [insert] hands out (ids are
    never reused). *)
Record Db := {
  posts : gmap N (Z * Post);
  next_id : N
}.

Definition doc (e : N * (Z * Post)) : Doc :=
  {| _id := e.1; _creationTime := e.2.1; fields := e.2.2 |}.

(** All documents of the table, in no particular order. *)
Definition docs (db : Db) : list Doc := doc <$> map_to_list (posts db).

Definition empty : Db := {| posts := ∅; next_id := 0%N |}.

(** The fields a [patch] can carry; [None] leaves the field as it is. *)
Record Patch := {
  p_title : option string;
  p_slug : option string;
  p_content : option string;
  p_excerpt : option string;
  p_published : option bool;
  p_tags : option (list string);
  p_updatedAt : option Z;
  p_publishedAt : option Z
}.

Definition merge_patch (pd : Patch) (p : Post) : Post :=
  {| title := default (title p) (p_title pd);
     slug := default (slug p) (p_slug pd);
     content := default (content p) (p_content pd);
     excerpt := default (excerpt p) (p_excerpt pd);
     published := default (published p) (p_published pd);
     publishedAt :=
       match p_publishedAt pd with
       | Some t => Some t
       | None => publishedAt p
       end;
     createdAt := createdAt p;
     updatedAt := default (updatedAt p) (p_updatedAt pd);
     authorId := authorId p;
     tags :=
       match p_tags pd with
       | Some ts => Some ts
       | None => tags p
       end |}.

(** The body of a mutation: it runs against the table, may write to it,
    and ends with a value or with an error.  The table is returned as the
    body left it, in both cases, so a write made before a [throw] shows. *)
Definition Mutation (A : Type) : Type := Db → Db * Result A.

#[global] Instance Mutation_ret : MRet Mutation := λ A a db, (db, Ok a).
#[global] Instance Mutation_bind : MBind Mutation := λ A B k m db,
  match m db with
  | (db', Ok a) => k a db'
  | (db', Throw msg) => (db', Throw msg)
  end.

(** [throw new Error(msg)] *)
Definition throw {A} (msg : string) : Mutation A := λ db, (db, Throw msg).

(** A read of the table, such as a query. *)
Definition read {A} (f : Db → A) : Mutation A := λ db, (db, Ok (f db)).

(** [ctx.db.get(id)] *)
Definition get (db : Db) (id : N) : option Doc :=
  e ← posts db !! id; Some (doc (id, e)).

(** [ctx.db.insert('posts', p)]: stores [p] under a fresh id, stamped
    with the creation time [t] the system assigns, and returns the id. *)
Definition insert (t : Z) (p : Post) : Mutation N := λ db,
  ({| posts := <[next_id db := (t, p)]> (posts db);
      next_id := N.succ (next_id db) |},
   Ok (next_id db)).

(** [ctx.db.patch(id, pd)]: shallow merge; throws on a missing document. *)
Definition patch (id : N) (pd : Patch) : Mutation unit := λ db,
  match posts db !! id with
  | None => (db, Throw "Update on nonexistent document ID")
  | Some (t, p) =>
      ({| posts := <[id := (t, merge_patch pd p)]> (posts db);
          next_id := next_id db |},
       Ok tt)
  end.

(** [ctx.db.delete(id)]: throws on a missing document. *)
Definition delete (id : N) : Mutation unit := λ db,
  match posts db !! id with
  | None => (db, Throw "Delete on nonexistent document ID")
  | Some _ =>
      ({| posts := base.delete id (posts db); next_id := next_id db |}, Ok tt)
  end.

(** *** Indexes

    Every index orders the documents by its fields, then by
    [_creationTime], then by [_id]. *)

Definition lex (c1 c2 : comparison) : comparison :=
  match c1 with
  | Eq => c2
  | _ => c1
  end.

(** An absent optional field sorts before every number. *)
Definition compare_optional (a b : option Z) : comparison :=
  match a, b with
  | None, None => Eq
  | None, Some _ => Lt
  | Some _, None => Gt
  | Some x, Some y => x ?= y
  end.

Definition compare_system (a b : Doc) : comparison :=
  lex (_creationTime a ?= _creationTime b) (_id a ?= _id b)%N.

(** Within [by_slug] restricted to one slug. *)
Definition by_slug : Doc → Doc → comparison := compare_system.

(** Within [by_published] restricted to one value of [published]. *)
Definition by_published (a b : Doc) : comparison :=
  lex (compare_optional (publishedAt (fields a)) (publishedAt (fields b)))
      (compare_system a b).

Definition by_created (a b : Doc) : comparison :=
  lex (createdAt (fields a) ?= createdAt (fields b)) (compare_system a b).

Inductive Order := asc | desc.

Definition leb (cmp : Doc → Doc → comparison) (o : Order) (a b : Doc) : bool :=
  match o, cmp a b with
  | asc, Gt => false
  | desc, Lt => false
  | _, _ => true
  end.

Definition index_le (cmp : Doc → Doc → comparison) (o : Order) : relation Doc :=
  λ a b, Is_true (leb cmp o a b).

#[global] Instance index_le_dec cmp o : RelDecision (index_le cmp o) :=
  λ a b, decide (Is_true (leb cmp o a b)).

(** [.query('posts').withIndex(index, range).order(o)]: the documents
    of the range, in index order. *)
Definition query (db : Db) (cmp : Doc → Doc → comparison)
    (range : Doc → bool) (o : Order) : list Doc :=
  merge_sort (index_le cmp o)
    (filter (λ d, Is_true (range d)) (docs db)).

(** [.first()] *)
Definition first (q : list Doc) : option Doc := head q.

(** [.take(n)]: [n] must be a non-negative integer. *)
Definition take (n : number) (q : list Doc) : Result (list Doc) :=
  match n with
  | Int z =>
      if decide (0 ≤ z) then Ok (list.take (Z.to_nat z) q)
      else Throw "take: n must be a non-negative integer"
  | NonInt => Throw "take: n must be a non-negative integer"
  end.

(** [.paginate({numItems, cursor})].  A cursor is the database's opaque
    string for a position in the index; it is embedded as that position,
    the document the previous page ended at. *)
Record PaginationOptions := {
  numItems : number;
  cursor : option Doc
}.

Record PaginationResult := {
  page : list Doc;
  isDone : bool;
  continueCursor : option Doc
}.

Definition paginate (cmp : Doc → Doc → comparison) (o : Order)
    (opts : PaginationOptions) (q : list Doc) : Result PaginationResult :=
  let rest :=
    match cursor opts with
    | None => q
    | Some c => filter (λ d, ¬ index_le cmp o d c) q
    end in
  pg ← take (numItems opts) rest;
  Ok {| page := pg;
        isDone := bool_decide (length rest ≤ length pg)%nat;
        continueCursor :=
          match last pg with
          | Some d => Some d
          | None => cursor opts
          end |}.

End Convex.

(** ** The backend functions of [posts] *)

Module Posts.
Import Convex.

(** [Date.now()] is frozen for the run of a function; [creation_time]
    is the stamp the database gives a document inserted by this run. *)
Record Env := {
  Date_now : Z;
  creation_time : Z
}.

(** Helper function to check if slug exists. *)
Definition slugExists (db : Db) (s : string) (excludeId : option Id) : bool :=
  match first (query db by_slug (λ d, bool_decide (slug (fields d) = s)) asc) with
  | None => false
  | Some existing =>
      match excludeId with
      | Some x => if decide (_id existing = x) then false else true
      | None => true
      end
  end.

(** The fields [listPublished] returns: all but [content]. *)
Record Listed := {
  l_id : Id;
  l_creationTime : Z;
  l_title : string;
  l_slug : string;
  l_excerpt : string;
  l_publishedAt : option Z;
  l_createdAt : Z;
  l_tags : option (list string)
}.

Definition listed (post : Doc) : Listed :=
  {| l_id := _id post;
     l_creationTime := _creationTime post;
     l_title := title (fields post);
     l_slug := slug (fields post);
     l_excerpt := excerpt (fields post);
     l_publishedAt := publishedAt (fields post);
     l_createdAt := createdAt (fields post);
     l_tags := tags (fields post) |}.

(** Get all published posts (for public blog listing). *)
Definition listPublished (db : Db) (limit : option number) : Result (list Listed) :=
  let limit := default (Int 20) limit in
  posts ← take limit
    (query db by_published (λ d, bool_decide (published (fields d) = true)) desc);
  Ok (listed <$> (posts : list Doc)).

(** Get a single post by slug. *)
Definition getBySlug (db : Db) (s : string) : option Doc :=
  match first (query db by_slug (λ d, bool_decide (slug (fields d) = s)) asc) with
  | None => None
  | Some post => if published (fields post) then Some post else None
  end.

(** Get all posts (including drafts) - for admin. *)
Definition listAll (db : Db) (paginationOpts : PaginationOptions)
    : Result PaginationResult :=
  paginate by_created desc paginationOpts (query db by_created (λ _, true) desc).

(** Get a single post by ID (for editing). *)
Definition getById (db : Db) (id : Id) : option Doc := get db id.

Record CreateArgs := {
  c_title : string;
  c_slug : string;
  c_content : string;
  c_excerpt : string;
  c_published : bool;
  c_tags : option (list string)
}.

(** Create a new post. *)
Definition create (env : Env) (args : CreateArgs) : Mutation Id :=
  duplicate ← read (λ db, slugExists db (c_slug args) None);
  if duplicate : bool then throw "A post with this slug already exists"
  else
    let now := Date_now env in
    insert (creation_time env)
      {| title := c_title args;
         slug := c_slug args;
         content := c_content args;
         excerpt := c_excerpt args;
         published := c_published args;
         publishedAt := if c_published args then Some now else None;
         createdAt := now;
         updatedAt := now;
         authorId := None;
         tags := Some (default [] (c_tags args)) |}.

Record UpdateArgs := {
  u_id : Id;
  u_title : option string;
  u_slug : option string;
  u_content : option string;
  u_excerpt : option string;
  u_published : option bool;
  u_tags : option (list string)
}.

(** The truth value JavaScript gives a string in a condition: only the
    empty string is falsy. *)
Definition truthy (s : string) : bool := negb (bool_decide (s = "")).

(** The [patchData] of [update]: the given fields, the time of the update
    and, if publishing for the first time, [publishedAt]. *)
Definition patchData (env : Env) (args : UpdateArgs) (existingPost : Doc) : Patch :=
  {| p_title := u_title args;
     p_slug := u_slug args;
     p_content := u_content args;
     p_excerpt := u_excerpt args;
     p_published := u_published args;
     p_tags := u_tags args;
     p_updatedAt := Some (Date_now env);
     p_publishedAt :=
       if bool_decide (u_published args = Some true)
          && negb (published (fields existingPost))
       then Some (Date_now env) else None |}.

(** Update an existing post. *)
Definition update (env : Env) (args : UpdateArgs) : Mutation Id :=
  let id := u_id args in
  existingPost ← read (λ db, get db id);
  match existingPost with
  | None => throw "Post not found"
  | Some existingPost =>
      duplicate ←
        match u_slug args with
        | Some s =>
            if truthy s && negb (bool_decide (s = slug (fields existingPost)))
            then read (λ db, slugExists db s (Some id))
            else mret false
        | None => mret false
        end;
      if duplicate : bool then throw "A post with this slug already exists"
      else
        _ ← patch id (patchData env args existingPost);
        mret id
  end.

(** Delete a post. *)
Definition remove (id : Id) : Mutation unit := delete id.

(** *** Sequential use of the mutations

    A mutation is a transaction: when its body throws, nothing it wrote is
    committed and the table stays as it was before the call. *)

Inductive Call :=
  | Create (env : Env) (args : CreateArgs)
  | Update (env : Env) (args : UpdateArgs)
  | Remove (id : Id).

Definition commit {A} (db : Db) (m : Mutation A) : Db :=
  match m db with
  | (db', Ok _) => db'
  | (_, Throw _) => db
  end.

Definition exec (db : Db) (c : Call) : Db :=
  match c with
  | Create env args => commit db (create env args)
  | Update env args => commit db (update env args)
  | Remove id => commit db (remove id)
  end.

Definition run (db : Db) (calls : list Call) : Db := foldl exec db calls.

(** The states the three mutations can bring the empty table to. *)
Definition reachable (db : Db) : Prop := ∃ calls, db = run Convex.empty calls.

(** Slug is unique among posts. *)
Definition unique_slugs (db : Db) : Prop :=
  ∀ i j e1 e2,
    posts db !! i = Some e1 → posts db !! j = Some e2 →
    slug e1.2 = slug e2.2 → i = j.

(** An [update] whose [slug] argument is the empty string. *)
Definition sets_empty_slug (c : Call) : Prop :=
  match c with
  | Update _ args => u_slug args = Some ""
  | _ => False
  end.

(** Every id in use was handed out by [insert]. *)
Definition ids_allocated (db : Db) : Prop :=
  ∀ i, is_Some (posts db !! i) → (i < next_id db)%N.

End Posts.

(** ** The admin editors: [slugify]

    The new-post page and the edit page define the same function; one
    embedding serves both. *)

Module Editor.

(** A JavaScript string is its sequence of UTF-16 code units; the regular
    expressions of [slugify] carry no [u] flag and work on code units. *)
Abbreviation jsstring := (list N) (only parsing).

Open Scope N_scope.

Definition hyphen : N := 45.
Definition underscore : N := 95.

Definition is_digit (c : N) : bool := (48 <=? c) && (c <=? 57).
Definition is_upper (c : N) : bool := (65 <=? c) && (c <=? 90).
Definition is_lower (c : N) : bool := (97 <=? c) && (c <=? 122).

(** [\w] is [[A-Za-z0-9_]]. *)
Definition is_word (c : N) : bool :=
  is_upper c || is_lower c || is_digit c || (c =? underscore).

(** [\s], and what [trim] strips: white space and line terminators. *)
Definition is_space (c : N) : bool :=
  bool_decide (c ∈ [9; 10; 11; 12; 13; 32; 160; 5760; 8232; 8233; 8239;
                    8287; 12288; 65279])
  || (8192 <=? c) && (c <=? 8202).

Fixpoint strip_start (f : N → bool) (s : jsstring) : jsstring :=
  match s with
  | [] => []
  | c :: s' => if f c then strip_start f s' else s
  end.

Definition strip_end (f : N → bool) (s : jsstring) : jsstring :=
  reverse (strip_start f (reverse s)).

(** [.trim()] *)
Definition trim (s : jsstring) : jsstring :=
  strip_end is_space (strip_start is_space s).

(** [.replace(/[^\w\s-]/g, '')] *)
Definition remove_other (s : jsstring) : jsstring :=
  filter (λ c, Is_true (is_word c || is_space c || (c =? hyphen))) s.

(** [[\s_-]] *)
Definition is_separator (c : N) : bool :=
  is_space c || (c =? underscore) || (c =? hyphen).

(** [.replace(/[\s_-]+/g, '-')]: every maximal run of separators becomes
    one hyphen; [in_run] tells that the run the next unit would extend
    has its hyphen already. *)
Fixpoint hyphenate_from (in_run : bool) (s : jsstring) : jsstring :=
  match s with
  | [] => []
  | c :: s' =>
      if is_separator c then
        if in_run then hyphenate_from true s'
        else hyphen :: hyphenate_from true s'
      else c :: hyphenate_from false s'
  end.

Definition hyphenate : jsstring → jsstring := hyphenate_from false.

(** [.replace(/^-+|-+$/g, '')] *)
Definition strip_hyphens (s : jsstring) : jsstring :=
  strip_end (λ c, c =? hyphen) (strip_start (λ c, c =? hyphen) s).

(** [String.prototype.toLowerCase] on ASCII-only behaviour: the units
    [A-Z] become [a-z], every other unit stays. *)
Definition ascii_toLowerCase (s : jsstring) : jsstring :=
  (λ c, if is_upper c then c + 32 else c) <$> s.

(** The code units of a string of ASCII characters. *)
Definition units (s : string) : jsstring :=
  Ascii.N_of_ascii <$> String.list_ascii_of_string s.

Section slugify.
(** [toLowerCase] follows the Unicode case tables, which are the
    engine's.  All [slugify] relies on is that no unit of its result
    is one of [A-Z]. *)
Variable toLowerCase : jsstring → jsstring.

Definition slugify (text : jsstring) : jsstring :=
  strip_hyphens (hyphenate (remove_other (trim (toLowerCase text)))).
End slugify.

(** What the claim calls a URL-safe unit. *)
Definition is_slug_unit (c : N) : bool :=
  is_lower c || is_digit c || (c =? hyphen).

Definition no_double_hyphen (s : jsstring) : Prop :=
  ∀ i, s !! i = Some hyphen → s !! S i ≠ Some hyphen.

End Editor.

(** ** The admin editors: validation and submission

    The new-post page and the edit page share [validatePost] and the
    parsing of the tags; their [handleSubmit] differ in the mutation they
    call. *)

Module Forms.
Import Editor.

(** The form state of an editor. *)
Record Form := {
  f_title : jsstring;
  f_slug : jsstring;
  f_excerpt : jsstring;
  f_content : jsstring;
  f_tags : jsstring
}.

(** neverthrow's [Result<void, string>]. *)
Inductive Validation :=
  | ok
  | err (message : string).

(** [!s.trim()] *)
Definition blank (s : jsstring) : bool := bool_decide (trim s = []).

(** [/^[a-z0-9-]+$/.test(s)] *)
Definition slug_pattern (s : jsstring) : bool :=
  negb (bool_decide (s = [])) && forallb is_slug_unit s.

(** Validation with Neverthrow. *)
Definition validatePost (f : Form) : Validation :=
  if blank (f_title f) then err "Title is required"
  else if bool_decide (200 < length (f_title f))%nat then
    err "Title is too long (max 200 characters)"
  else if blank (f_slug f) then err "Slug is required"
  else if negb (slug_pattern (f_slug f)) then
    err "Slug can only contain lowercase letters, numbers, and hyphens"
  else if blank (f_excerpt f) then err "Excerpt is required"
  else if bool_decide (500 < length (f_excerpt f))%nat then
    err "Excerpt is too long (max 500 characters)"
  else if blank (f_content f) then err "Content is required"
  else ok.

Definition comma : N := 44.
Definition space : N := 32.

(** [.split(sep)] on a separator of one unit: the pieces between the
    separators, empty pieces included. *)
Fixpoint split (sep : N) (s : jsstring) : list jsstring :=
  match s with
  | [] => [[]]
  | c :: s' =>
      if (c =? sep)%N then [] :: split sep s'
      else
        match split sep s' with
        | piece :: pieces => (c :: piece) :: pieces
        | [] => [[c]]
        end
  end.

(** [.join(sep)] *)
Fixpoint join (sep : jsstring) (xs : list jsstring) : jsstring :=
  match xs with
  | [] => []
  | [x] => x
  | x :: xs' => x ++ sep ++ join sep xs'
  end.

(** The [tagArray] of [handleSubmit]:
    [tags.split(',').map((t) => t.trim()).filter((t) => t.length > 0)]. *)
Definition tagArray (tags : jsstring) : list jsstring :=
  filter (λ t, (0 < length t)%nat) (trim <$> split comma tags).

(** The tags field as the edit page fills it from the stored post:
    [query.data.tags?.join(', ') || '']. *)
Definition tags_field (stored : option (list jsstring)) : jsstring :=
  match stored with
  | Some ts => join [comma; space] ts
  | None => []
  end.

(** A tag as [tagArray] yields them. *)
Definition clean_tag (t : jsstring) : Prop :=
  t ≠ [] ∧ trim t = t ∧ comma ∉ t.

Section submit.
(** How the client library hands a JavaScript string to the backend. *)
Variable wire : jsstring → string.





End submit.


End Forms.

(** ** Sample calls, for the examples below *)

Module Sample.
Import Convex Posts.

Definition at_time (t : Z) : Env := {| Date_now := t; creation_time := t |}.

Definition post (s : string) (pub : bool) : CreateArgs :=
  {| c_title := "Hello";
     c_slug := s;
     c_content := "<p>Hello</p>";
     c_excerpt := "Hello";
     c_published := pub;
     c_tags := None |}.

Definition set_slug (id : Id) (s : string) : UpdateArgs :=
  {| u_id := id; u_title := None; u_slug := Some s; u_content := None;
     u_excerpt := None; u_published := None; u_tags := None |}.

Definition set_published (id : Id) (pub : bool) : UpdateArgs :=
  {| u_id := id; u_title := None; u_slug := None; u_content := None;
     u_excerpt := None; u_published := Some pub; u_tags := None |}.

(** Two drafts, each then given the empty slug. *)
Definition empty_slug_twice : list Call :=
  [Create (at_time 1) (post "first" false);
   Create (at_time 2) (post "second" false);
   Update (at_time 3) (set_slug 0 "");
   Update (at_time 4) (set_slug 1 "")].

(** A draft that is published, withdrawn, and published again. *)
Definition publish_once : list Call :=
  [Create (at_time 1) (post "first" false);
   Update (at_time 2) (set_published 0 true)].

Definition publish_twice : list Call :=
  publish_once
  ++ [Update (at_time 3) (set_published 0 false);
      Update (at_time 4) (set_published 0 true)].

(** A published post [0] with slug [first] and a draft [1] with slug
    [second]. *)
Definition two_posts : Db :=
  run Convex.empty
    [Create (at_time 1) (post "first" true);
     Create (at_time 2) (post "second" false)].

End Sample.

(** ** Measures for the listings and the stored posts *)

Module Listing.
Import Convex Posts.

(** The published posts of the table. *)
Definition published_docs (db : Db) : list Doc :=
  filter (λ d, published (fields d) = true) (docs db).


(** Every published post has a publication time, and every post a list
    of tags. *)
Definition stamped (db : Db) : Prop :=
  ∀ i t p, posts db !! i = Some (t, p) →
    (published p = true → is_Some (publishedAt p)) ∧ is_Some (tags p).

End Listing.

(** The two documents of [Sample.two_posts]. *)
Module SampleDocs.

Definition first_post : Doc :=
  {| _id := 0%N; _creationTime := 1;
     fields := {| title := "Hello"; slug := "first";
       content := "<p>Hello</p>"; excerpt := "Hello";
       published := true; publishedAt := Some 1;
       createdAt := 1; updatedAt := 1; authorId := None;
       tags := Some [] |} |}.

Definition second_post : Doc :=
  {| _id := 1%N; _creationTime := 2;
     fields := {| title := "Hello"; slug := "second";
       content := "<p>Hello</p>"; excerpt := "Hello";
       published := false; publishedAt := None;
       createdAt := 2; updatedAt := 2; authorId := None;
       tags := Some [] |} |}.

End SampleDocs.

(** ** The public blog routes: the [load] functions *)

Module Blog.
Import Convex Posts.

(** A [load] ends with the data of the page or with [error(status, message)]. *)
Inductive Loaded (A : Type) :=
  | Data (a : A)
  | HttpError (status : Z) (message : string).
Arguments Data {A} a.
Arguments HttpError {A} status message.

(** [/blog/[slug]]: the post of the slug, or a 404. *)
Definition load_post (db : Db) (params_slug : string) : Loaded Doc :=
  match getBySlug db params_slug with
  | None => HttpError 404 "Post not found"
  | Some post => Data post
  end.

(** [/blog]: the listing, asked with [limit: 20]. *)
Definition load_index (db : Db) : Result (list Listed) :=
  listPublished db (Some (Int 20)).

End Blog.

(** ** The backend function [users.isAuthenticated] *)

Module Users.

(** Of a document of [authSessions], the field the query reads. *)
Record Session := {
  expirationTime : option Z
}.

(** What the query runs against: the sessions by [_id], the user id
    [auth.getUserId(ctx)] gives, and [Date.now()]. *)
Record Ctx := {
  authSessions : gmap string Session;
  auth_userId : option string;
  Date_now : Z
}.

(** Check if user is authenticated by checking if they have an active
    session. *)
Definition isAuthenticated (ctx : Ctx) (sessionId : option string) : bool :=
  match sessionId with
  | Some sid =>
      if Posts.truthy sid then
        match authSessions ctx !! sid with
        | None => false
        | Some session =>
            match expirationTime session with
            | Some e => if negb (e =? 0) && (e <? Date_now ctx) then false else true
            | None => true
            end
        end
      else bool_decide (auth_userId ctx ≠ None)
  | None => bool_decide (auth_userId ctx ≠ None)
  end.

(** The same state with the clock at [t]. *)
Definition at_time (ctx : Ctx) (t : Z) : Ctx :=
  {| authSessions := authSessions ctx;
     auth_userId := auth_userId ctx;
     Date_now := t |}.

End Users.

(** A session that expires at time 100, and no signed-in caller. *)
Module SampleSessions.

Definition one_session : Users.Ctx :=
  {| Users.authSessions := {[ "s1" := {| Users.expirationTime := Some 100 |} ]};
     Users.auth_userId := None;
     Users.Date_now := 0 |}.

End SampleSessions.

(** A form as an author fills it. *)
Module SampleForms.
Import Editor Forms.

Definition hello : Form :=
  {| f_title := units "Hello, World";
     f_slug := units "hello-world";
     f_excerpt := units "A greeting";
     f_content := units "<p>Hello</p>";
     f_tags := units "news, web ,, " |}.


End SampleForms.

(** The calls the sample forms lead to, with [Forms.ascii_wire]. *)
Module SampleCalls.
Import Posts.



End SampleCalls.

(** * Properties *)

(** ** The document store *)

Module ConvexFacts.
Import Convex.

Lemma elem_of_docs db d :
  d ∈ docs db ↔ posts db !! _id d = Some (_creationTime d, fields d).
Proof.
  unfold docs. rewrite list_elem_of_fmap. split.
  - intros ([i [t p]] & -> & Hin). by apply elem_of_map_to_list in Hin.
  - intros Hd. exists (_id d, (_creationTime d, fields d)). split.
    + by destruct d.
    + by apply elem_of_map_to_list.
Qed.

Lemma elem_of_query db cmp range o d :
  d ∈ query db cmp range o ↔ d ∈ docs db ∧ range d = true.
Proof.
  unfold query. rewrite merge_sort_Permutation, list_elem_of_filter.
  rewrite Is_true_true. tauto.
Qed.

Lemma first_elem_of q d : first q = Some d → d ∈ q.
Proof. apply head_Some_elem_of. Qed.

Lemma first_None_query db cmp range o :
  first (query db cmp range o) = None → ∀ d, d ∈ docs db → range d = false.
Proof.
  unfold first. intros Hq d Hd.
  destruct (range d) eqn:Hr; [|done].
  assert (d ∈ query db cmp range o) as Hin by by apply elem_of_query.
  apply head_None in Hq. rewrite Hq in Hin. by apply not_elem_of_nil in Hin.
Qed.

Lemma take_Ok n q l : take n q = Ok l → l ⊆ q.
Proof.
  destruct n as [z|]; simpl; [|done].
  case_decide; [|done]. intros [= <-]. apply subseteq_take.
Qed.

Lemma paginate_Ok cmp o opts q r : paginate cmp o opts q = Ok r → page r ⊆ q.
Proof.
  unfold paginate.
  destruct (take _ _) as [pg|] eqn:Htake; simpl; [|done].
  intros [= <-]. simpl. apply take_Ok in Htake.
  intros d Hd. apply Htake in Hd.
  destruct (cursor opts); [|done].
  by apply list_elem_of_filter in Hd as [_ ?].
Qed.

Lemma get_Some db id d :
  get db id = Some d ↔
  _id d = id ∧ posts db !! id = Some (_creationTime d, fields d).
Proof.
  unfold get. destruct (posts db !! id) as [[t p]|]; simpl.
  - split.
    + by intros [= <-].
    + intros [<- Heq]. destruct d; simpl in *. by simplify_eq.
  - split; [done|]. by intros [_ ?].
Qed.

Lemma get_None db id : get db id = None ↔ posts db !! id = None.
Proof. unfold get. by destruct (posts db !! id). Qed.

End ConvexFacts.

(** ** The backend functions *)

Module PostsFacts.
Import Convex Posts ConvexFacts.

(** Runs the next step of a mutation body. *)
Ltac step_mutation :=
  unfold mbind, Mutation_bind, mret, Mutation_ret, read, throw, insert, patch;
  simpl.

Lemma slugExists_None_true db s :
  slugExists db s None = true ↔
  ∃ i e, posts db !! i = Some e ∧ slug e.2 = s.
Proof.
  unfold slugExists.
  destruct (first _) as [d|] eqn:Hq.
  - split; [intros _|done].
    apply first_elem_of, elem_of_query in Hq as [Hd Hs].
    apply elem_of_docs in Hd. apply bool_decide_eq_true in Hs. eauto.
  - split; [done|]. intros (i & [t p] & Hi & Hs).
    apply first_None_query with (d := doc (i, (t, p))) in Hq.
    + by apply bool_decide_eq_false in Hq.
    + by apply elem_of_docs.
Qed.

(** With the slug unique, a check that excludes [x] fails only when the
    slug is free or is the one of [x]. *)
Lemma slugExists_exclude_false db s x :
  unique_slugs db →
  slugExists db s (Some x) = false →
  ∀ i e, posts db !! i = Some e → slug e.2 = s → i = x.
Proof.
  unfold slugExists. intros Huniq Hx i [t p] Hi Hs.
  destruct (first _) as [d|] eqn:Hq.
  - case_decide as Hdx; [|done]. subst x.
    apply first_elem_of, elem_of_query in Hq as [Hd Hds].
    apply elem_of_docs in Hd. apply bool_decide_eq_true in Hds.
    eapply Huniq; [done..|]. simpl in *. congruence.
  - apply first_None_query with (d := doc (i, (t, p))) in Hq.
    + by apply bool_decide_eq_false in Hq.
    + by apply elem_of_docs.
Qed.

Lemma listPublished_Ok db limit r x :
  listPublished db limit = Ok r → x ∈ r →
  ∃ d, x = listed d ∧ d ∈ docs db ∧ published (fields d) = true.
Proof.
  unfold listPublished.
  destruct (take _ _) as [l|] eqn:Htake; simpl; [|done].
  intros [= <-] (d & -> & Hd)%list_elem_of_fmap.
  apply take_Ok in Htake. apply Htake, elem_of_query in Hd as [Hd Hp].
  apply bool_decide_eq_true in Hp. eauto.
Qed.

Lemma getBySlug_Some db s d :
  getBySlug db s = Some d →
  d ∈ docs db ∧ slug (fields d) = s ∧ published (fields d) = true.
Proof.
  unfold getBySlug. destruct (first _) as [post|] eqn:Hq; [|done].
  destruct (published (fields post)) eqn:Hp; [|done]. intros [= <-].
  apply first_elem_of, elem_of_query in Hq as [Hd Hs].
  by apply bool_decide_eq_true in Hs.
Qed.

Lemma listAll_Ok db opts r d :
  listAll db opts = Ok r → d ∈ page r → d ∈ docs db.
Proof.
  unfold listAll. intros Hr%paginate_Ok Hd.
  by apply Hr, elem_of_query in Hd as [? _].
Qed.

(** C1.  Creating a post with a duplicate slug is rejected: when the
    table holds a post with the slug of the arguments, [create] throws
    "A post with this slug already exists" without having written to the
    table, and the table after the call is the table before it. *)
Theorem create_duplicate_slug env db args i e :
  posts db !! i = Some e →
  slug e.2 = c_slug args →
  create env args db = (db, Throw "A post with this slug already exists")
  ∧ exec db (Create env args) = db.
Proof.
  intros Hi Hs.
  assert (slugExists db (c_slug args) None = true) as Hex
    by (apply slugExists_None_true; eauto).
  unfold exec, commit, create. step_mutation. by rewrite Hex.
Qed.

Lemma create_duplicate_slug_witness :
  create (Sample.at_time 3) (Sample.post "second" true) Sample.two_posts
    = (Sample.two_posts, Throw "A post with this slug already exists")
  ∧ exec Sample.two_posts
      (Create (Sample.at_time 3) (Sample.post "second" true))
    = Sample.two_posts.
Proof.
  apply (create_duplicate_slug _ Sample.two_posts _ 1%N
           (2, {| title := "Hello"; slug := "second";
                  content := "<p>Hello</p>"; excerpt := "Hello";
                  published := false; publishedAt := None;
                  createdAt := 2; updatedAt := 2; authorId := None;
                  tags := Some [] |})).
  - vm_compute. reflexivity.
  - reflexivity.
Defined.

(** C6.  [update] on an id that refers to no post throws "Post not
    found" without having written to the table, and the table after the
    call is the table before it. *)
Theorem update_missing_post env db args :
  posts db !! u_id args = None →
  update env args db = (db, Throw "Post not found")
  ∧ exec db (Update env args) = db.
Proof.
  intros Hid%get_None. unfold exec, commit, update. step_mutation.
  by rewrite Hid.
Qed.

Lemma update_missing_post_witness :
  update (Sample.at_time 3) (Sample.set_published 7 true) Sample.two_posts
    = (Sample.two_posts, Throw "Post not found")
  ∧ exec Sample.two_posts
      (Update (Sample.at_time 3) (Sample.set_published 7 true))
    = Sample.two_posts.
Proof.
  apply (update_missing_post _ Sample.two_posts). vm_compute. reflexivity.
Defined.

(** C4.  Listing published posts never returns unpublished ones: every
    element [listPublished] returns, whatever the table and the limit,
    is the listing of a stored post whose [published] field is true. *)
Theorem listPublished_only_published db limit r :
  listPublished db limit = Ok r →
  Forall (λ x,
    ∃ t p, posts db !! l_id x = Some (t, p)
           ∧ published p = true
           ∧ x = listed {| _id := l_id x; _creationTime := t; fields := p |}) r.
Proof.
  intros Hr. apply Forall_forall. intros x Hx.
  destruct (listPublished_Ok _ _ _ _ Hr Hx) as (d & -> & Hd & Hp).
  apply elem_of_docs in Hd. exists (_creationTime d), (fields d).
  by destruct d.
Qed.

Lemma listPublished_only_published_witness :
  Forall (λ x,
    ∃ t p, posts Sample.two_posts !! l_id x = Some (t, p)
           ∧ published p = true
           ∧ x = listed {| _id := l_id x; _creationTime := t; fields := p |})
    [listed {| _id := 0%N; _creationTime := 1;
               fields := {| title := "Hello"; slug := "first";
                 content := "<p>Hello</p>"; excerpt := "Hello";
                 published := true; publishedAt := Some 1;
                 createdAt := 1; updatedAt := 1; authorId := None;
                 tags := Some [] |} |}].
Proof.
  apply (listPublished_only_published Sample.two_posts (Some (Int 5))).
  vm_compute. reflexivity.
Defined.

(** No query returns a post whose id the table does not hold. *)
Lemma absent_not_returned db id :
  posts db !! id = None →
  getById db id = None
  ∧ (∀ s d, getBySlug db s = Some d → _id d ≠ id)
  ∧ (∀ limit r x, listPublished db limit = Ok r → x ∈ r → l_id x ≠ id)
  ∧ (∀ opts r d, listAll db opts = Ok r → d ∈ page r → _id d ≠ id).
Proof.
  intros Hid.
  assert (∀ d, d ∈ docs db → _id d ≠ id) as Hgone.
  { intros d Hd%elem_of_docs <-. by rewrite Hid in Hd. }
  split; [|split; [|split]].
  - by apply get_None.
  - intros s d (Hd & _)%getBySlug_Some. by apply Hgone.
  - intros limit r x Hr Hx.
    destruct (listPublished_Ok _ _ _ _ Hr Hx) as (d & -> & Hd & _).
    by apply Hgone.
  - intros opts r d Hr Hd. eapply Hgone, listAll_Ok; eauto.
Qed.

(** C5.  Deleting a post removes it from subsequent listings: for a post
    id present in the table, [remove] completes, and in the table it
    leaves neither [getById], [getBySlug], [listPublished] nor [listAll]
    returns a post with that id. *)
Theorem remove_hides_post db id e :
  posts db !! id = Some e →
  ∃ db',
    remove id db = (db', Ok tt)
    ∧ exec db (Remove id) = db'
    ∧ getById db' id = None
    ∧ (∀ s d, getBySlug db' s = Some d → _id d ≠ id)
    ∧ (∀ limit r x, listPublished db' limit = Ok r → x ∈ r → l_id x ≠ id)
    ∧ (∀ opts r d, listAll db' opts = Ok r → d ∈ page r → _id d ≠ id).
Proof.
  intros Hid. unfold exec, commit, remove, Convex.delete. rewrite Hid.
  eexists. split; [reflexivity|]. split; [reflexivity|].
  apply absent_not_returned. apply lookup_delete_eq.
Qed.

Lemma remove_hides_post_witness :
  ∃ db',
    remove 0 Sample.two_posts = (db', Ok tt)
    ∧ exec Sample.two_posts (Remove 0) = db'
    ∧ getById db' 0 = None
    ∧ (∀ s d, getBySlug db' s = Some d → _id d ≠ 0%N)
    ∧ (∀ limit r x, listPublished db' limit = Ok r → x ∈ r → l_id x ≠ 0%N)
    ∧ (∀ opts r d, listAll db' opts = Ok r → d ∈ page r → _id d ≠ 0%N).
Proof.
  apply (remove_hides_post Sample.two_posts 0%N
           (1, {| title := "Hello"; slug := "first";
                  content := "<p>Hello</p>"; excerpt := "Hello";
                  published := true; publishedAt := Some 1;
                  createdAt := 1; updatedAt := 1; authorId := None;
                  tags := Some [] |})).
  vm_compute. reflexivity.
Defined.

(** *** What each mutation does to the table *)

Lemma create_Ok env db args id db' :
  create env args db = (db', Ok id) →
  slugExists db (c_slug args) None = false
  ∧ id = next_id db
  ∧ next_id db' = N.succ (next_id db)
  ∧ ∃ p, posts db' = <[id := (creation_time env, p)]> (posts db)
         ∧ slug p = c_slug args
         ∧ published p = c_published args
         ∧ publishedAt p
           = if c_published args then Some (Date_now env) else None.
Proof.
  unfold create. step_mutation. destruct (slugExists _ _ _); [done|].
  intros [= <- <-]. simpl. eauto 10.
Qed.

Lemma update_Ok env db args id db' :
  update env args db = (db', Ok id) →
  ∃ t p,
    posts db !! id = Some (t, p)
    ∧ id = u_id args
    ∧ next_id db' = next_id db
    ∧ posts db'
      = <[id := (t, merge_patch (patchData env args (doc (id, (t, p)))) p)]>
          (posts db)
    ∧ (∀ s, u_slug args = Some s → s ≠ "" → s ≠ slug p →
         slugExists db s (Some id) = false).
Proof.
  unfold update, get. step_mutation.
  destruct (posts db !! u_id args) as [[t p]|] eqn:Hid; simpl; [|done].
  intros Hrun. exists t, p.
  destruct (u_slug args) as [s|] eqn:Hslug;
    [destruct (truthy s && negb (bool_decide (s = slug p))) eqn:Hck;
       [destruct (slugExists db s (Some (u_id args))) eqn:Hex; [done|]|]|];
    simpl in Hrun; rewrite Hid in Hrun; injection Hrun as <- <-;
    (split; [done|]); (split; [done|]); (split; [done|]); (split; [done|]).
  - by intros ? [= <-].
  - intros ? [= <-] Hne Hold. unfold truthy in Hck.
    by rewrite !bool_decide_eq_false_2 in Hck.
  - done.
Qed.

Lemma slug_patchData env args existingPost p :
  slug (merge_patch (patchData env args existingPost) p)
  = default (slug p) (u_slug args).
Proof. done. Qed.

Lemma publishedAt_patchData env args existingPost p :
  publishedAt (merge_patch (patchData env args existingPost) p)
  = if bool_decide (u_published args = Some true)
       && negb (published (fields existingPost))
    then Some (Date_now env) else publishedAt p.
Proof. simpl. by destruct (bool_decide _ && _). Qed.

Lemma remove_Ok db id u db' :
  remove id db = (db', Ok u) →
  posts db' = base.delete id (posts db) ∧ next_id db' = next_id db.
Proof.
  unfold remove, Convex.delete. destruct (posts db !! id); [|done].
  by intros [= <- <-].
Qed.

(** What a call commits. *)
Lemma commit_cases {A} db (m : Mutation A) :
  (∃ db' a, m db = (db', Ok a) ∧ commit db m = db')
  ∨ commit db m = db.
Proof.
  unfold commit. destruct (m db) as [db' [a|msg]]; [left|right]; eauto.
Qed.

(** *** Deleted posts stay deleted *)

Lemma ids_allocated_exec db c : ids_allocated db → ids_allocated (exec db c).
Proof.
  intros Hwf. destruct c as [env args|env args|id]; simpl.
  - destruct (commit_cases db (create env args)) as [(db' & id & Hc & Hdb)|Hdb];
      rewrite Hdb; [|done].
    apply create_Ok in Hc as (_ & -> & Hn & p & Hp & _).
    intros i. simpl. rewrite Hp, Hn, lookup_insert_is_Some.
    intros [<-|[_ Hi%Hwf]]; lia.
  - destruct (commit_cases db (update env args)) as [(db' & id & Hu & Hdb)|Hdb];
      rewrite Hdb; [|done].
    apply update_Ok in Hu as (t & p & Hid & _ & Hn & Hp & _).
    intros i. simpl. rewrite Hp, Hn, lookup_insert_is_Some.
    intros [<-|[_ Hi]]; apply Hwf; eauto.
  - destruct (commit_cases db (remove id)) as [(db' & u & Hr & Hdb)|Hdb];
      rewrite Hdb; [|done].
    apply remove_Ok in Hr as [Hp Hn].
    intros i. simpl. rewrite Hp, Hn, lookup_delete_is_Some. intros [_ ?]. eauto.
Qed.

Lemma ids_allocated_reachable db : reachable db → ids_allocated db.
Proof.
  intros [calls ->]. unfold run.
  induction calls as [|c calls IH] using rev_ind.
  - intros i [e He]. simpl in He. by rewrite lookup_empty in He.
  - rewrite foldl_app. simpl. by apply ids_allocated_exec.
Qed.

Lemma absent_exec db c id :
  posts db !! id = None → (id < next_id db)%N →
  posts (exec db c) !! id = None ∧ (id < next_id (exec db c))%N.
Proof.
  intros Hid Hlt. destruct c as [env args|env args|id']; simpl.
  - destruct (commit_cases db (create env args)) as [(db' & i & Hc & Hdb)|Hdb];
      rewrite Hdb; [|done].
    apply create_Ok in Hc as (_ & -> & Hn & p & Hp & _).
    simpl. rewrite Hp, Hn, lookup_insert_ne by lia. split; [done|lia].
  - destruct (commit_cases db (update env args)) as [(db' & i & Hu & Hdb)|Hdb];
      rewrite Hdb; [|done].
    apply update_Ok in Hu as (t & p & Hi & _ & Hn & Hp & _).
    simpl. rewrite Hp, Hn, lookup_insert_ne by congruence. done.
  - destruct (commit_cases db (remove id')) as [(db' & u & Hr & Hdb)|Hdb];
      rewrite Hdb; [|done].
    apply remove_Ok in Hr as [Hp Hn].
    simpl. rewrite Hp, Hn. split; [|done]. apply lookup_delete_None. auto.
Qed.

Lemma absent_run db calls id :
  posts db !! id = None → (id < next_id db)%N →
  posts (run db calls) !! id = None.
Proof.
  unfold run. revert db.
  induction calls as [|c calls IH]; intros db Hid Hlt; [done|].
  simpl. destruct (absent_exec db c id Hid Hlt). by apply IH.
Qed.

(** X12.  Ids are not handed out twice, so whatever mutations follow the
    removal of a post, no query returns it again. *)
Lemma removed_post_stays_removed db id e calls :
  ids_allocated db →
  posts db !! id = Some e →
  let db' := run (exec db (Remove id)) calls in
  getById db' id = None
  ∧ (∀ s d, getBySlug db' s = Some d → _id d ≠ id)
  ∧ (∀ limit r x, listPublished db' limit = Ok r → x ∈ r → l_id x ≠ id)
  ∧ (∀ opts r d, listAll db' opts = Ok r → d ∈ page r → _id d ≠ id).
Proof.
  intros Hwf Hid db'. apply absent_not_returned. subst db'.
  assert (id < next_id db)%N as Hlt by (apply Hwf; eauto).
  apply absent_run; simpl; unfold commit, remove, Convex.delete;
    rewrite Hid; simpl.
  - apply lookup_delete_eq.
  - done.
Qed.

(** *** Slug uniqueness *)

Lemma unique_slugs_empty : unique_slugs Convex.empty.
Proof. intros i j e1 e2 Hi. simpl in Hi. by rewrite lookup_empty in Hi. Qed.

Lemma unique_slugs_insert db db' id e :
  unique_slugs db →
  posts db' = <[id := e]> (posts db) →
  (∀ j e', posts db !! j = Some e' → slug e'.2 = slug e.2 → j = id) →
  unique_slugs db'.
Proof.
  intros Huniq Hp Hfree i j e1 e2. rewrite Hp, !lookup_insert.
  repeat case_decide; subst; intros Hi Hj Hs; simplify_eq; try done.
  - symmetry. eauto.
  - eauto.
  - eauto.
Qed.

(** Every mutation keeps the slug unique, except an [update] to the
    empty slug. *)
Lemma unique_slugs_exec db c :
  unique_slugs db → ¬ sets_empty_slug c → unique_slugs (exec db c).
Proof.
  intros Huniq Hc. destruct c as [env args|env args|id]; simpl.
  - destruct (commit_cases db (create env args)) as [(db' & id & Hcr & Hdb)|Hdb];
      rewrite Hdb; [|done].
    apply create_Ok in Hcr as (Hfree & -> & _ & p & Hp & Hs & _). simpl.
    eapply unique_slugs_insert; [done..|].
    intros j e' Hj Hse. simpl in Hse. exfalso.
    apply not_true_iff_false in Hfree. apply Hfree.
    apply slugExists_None_true. exists j, e'. split; congruence.
  - destruct (commit_cases db (update env args)) as [(db' & id & Hu & Hdb)|Hdb];
      rewrite Hdb; [|done].
    apply update_Ok in Hu as (t & p & Hid & _ & _ & Hp & Hchk).
    simpl. eapply unique_slugs_insert; [done..|].
    intros j [t' q] Hj Hse. simpl fst in Hse. simpl snd in Hse.
    rewrite slug_patchData in Hse.
    destruct (u_slug args) as [s|] eqn:Hslug; simpl in Hse.
    + destruct (decide (s = slug p)) as [->|Hne].
      * eapply Huniq; eauto.
      * eapply slugExists_exclude_false; [done| |done..].
        apply Hchk; [done| |done]. intros ->. by apply Hc.
    + eapply Huniq; eauto.
  - destruct (commit_cases db (remove id)) as [(db' & u & Hr & Hdb)|Hdb];
      rewrite Hdb; [|done].
    apply remove_Ok in Hr as [Hp _]. simpl.
    intros i j e1 e2. rewrite Hp, !lookup_delete_Some.
    intros [_ Hi] [_ Hj]. eauto.
Qed.

Lemma unique_slugs_run calls :
  Forall (λ c, ¬ sets_empty_slug c) calls →
  unique_slugs (run Convex.empty calls).
Proof.
  unfold run. induction calls as [|c calls IH] using rev_ind; intros Hcalls.
  - apply unique_slugs_empty.
  - apply Forall_app in Hcalls as [Hcalls Hc]. rewrite foldl_app. simpl.
    apply unique_slugs_exec; [by apply IH|]. by inversion Hc.
Qed.

(** C2.  Slug uniqueness fails in a reachable state: [update] takes the
    empty slug for no slug at all and skips the duplicate check, so two
    posts can both be given the empty slug. *)
Theorem empty_slug_update_duplicates :
  let db := run Convex.empty Sample.empty_slug_twice in
  reachable db
  ∧ slug ∘ fields <$> getById db 0 = Some ""
  ∧ slug ∘ fields <$> getById db 1 = Some ""
  ∧ ¬ unique_slugs db.
Proof.
  split; [by eexists|]. split; [by vm_compute|]. split; [by vm_compute|].
  intros Huniq.
  specialize (Huniq 0%N 1%N
    (1, {| title := "Hello"; slug := ""; content := "<p>Hello</p>";
           excerpt := "Hello"; published := false; publishedAt := None;
           createdAt := 1; updatedAt := 3; authorId := None;
           tags := Some [] |})
    (2, {| title := "Hello"; slug := ""; content := "<p>Hello</p>";
           excerpt := "Hello"; published := false; publishedAt := None;
           createdAt := 2; updatedAt := 4; authorId := None;
           tags := Some [] |})).
  assert (0%N = 1%N) as Heq; [|done].
  apply Huniq; by vm_compute.
Qed.

(** *** Publication time *)

(** [create] stamps a post that is born published, and only that. *)
Lemma create_publishedAt env db args id db' :
  create env args db = (db', Ok id) →
  publishedAt ∘ fields <$> getById db' id
  = Some (if c_published args then Some (Date_now env) else None).
Proof.
  intros (_ & _ & _ & p & Hp & _ & _ & Hat)%create_Ok.
  unfold getById, get. rewrite Hp, lookup_insert_eq. simpl. by rewrite Hat.
Qed.

(** [update] stamps the post when it turns a draft into a published
    post, and leaves [publishedAt] alone otherwise. *)
Lemma update_publishedAt env db args id db' old :
  update env args db = (db', Ok id) →
  getById db id = Some old →
  publishedAt ∘ fields <$> getById db' id
  = Some (if bool_decide (u_published args = Some true)
             && negb (published (fields old))
          then Some (Date_now env) else publishedAt (fields old)).
Proof.
  intros (t & p & Hid & _ & _ & Hp & _)%update_Ok.
  unfold getById, get. rewrite Hp, Hid, lookup_insert_eq.
  intros [= <-]. simpl. by destruct (bool_decide _ && _).
Qed.

(** C3.  A post can be stamped more than once: publishing, withdrawing
    and publishing again sets [publishedAt] a second time, since
    [update] tests the [published] field and not an earlier stamp. *)
Theorem republish_restamps :
  publishedAt ∘ fields <$> getById (run Convex.empty Sample.publish_once) 0
    = Some (Some 2)
  ∧ publishedAt ∘ fields <$> getById (run Convex.empty Sample.publish_twice) 0
    = Some (Some 4).
Proof. split; by vm_compute. Qed.

End PostsFacts.

(** ** The slug of a title *)

Module EditorFacts.
Import Editor.
Open Scope N_scope.

Lemma strip_start_suffix f s : strip_start f s `suffix_of` s.
Proof.
  induction s as [|c s IH]; simpl; [done|].
  destruct (f c); [by apply suffix_cons_r|done].
Qed.

Lemma strip_end_prefix f s : strip_end f s `prefix_of` s.
Proof.
  unfold strip_end. apply prefix_suffix_reverse.
  rewrite reverse_involutive. apply strip_start_suffix.
Qed.

Lemma head_strip_start f s c : head (strip_start f s) = Some c → f c = false.
Proof.
  induction s as [|a s IH]; simpl; [done|].
  destruct (f a) eqn:Hfa; [done|]. simpl. by intros [= <-].
Qed.

Lemma last_strip_end f s c : last (strip_end f s) = Some c → f c = false.
Proof. unfold strip_end. rewrite last_reverse. apply head_strip_start. Qed.

Lemma head_prefix (s t : list N) c :
  s `prefix_of` t → head s = Some c → head t = Some c.
Proof. intros [k ->]. by destruct s. Qed.

Lemma elem_of_strip f g s c :
  c ∈ strip_end f (strip_start g s) → c ∈ s.
Proof.
  destruct (strip_end_prefix f (strip_start g s)) as [k Hk].
  destruct (strip_start_suffix g s) as [k' Hk'].
  intros Hc. rewrite Hk', Hk, !elem_of_app. auto.
Qed.

Lemma elem_of_trim s c : c ∈ trim s → c ∈ s.
Proof. apply elem_of_strip. Qed.

Lemma no_double_hyphen_cons c s :
  no_double_hyphen (c :: s) ↔
  (c = hyphen → head s ≠ Some hyphen) ∧ no_double_hyphen s.
Proof.
  unfold no_double_hyphen. split.
  - intros H. split.
    + intros ->. specialize (H 0%nat eq_refl). by destruct s.
    + intros i. apply (H (S i)).
  - intros [H0 H] [|i]; simpl.
    + intros [= ->]. destruct s; [done|]. by apply H0.
    + apply H.
Qed.

Lemma no_double_hyphen_suffix s t :
  s `suffix_of` t → no_double_hyphen t → no_double_hyphen s.
Proof.
  intros [k ->] H i Hi Hsi.
  apply (H (length k + i)%nat).
  - by rewrite lookup_app_r, Nat.add_comm, Nat.add_sub by lia.
  - replace (S (length k + i)) with (length k + S i)%nat by lia.
    by rewrite lookup_app_r, Nat.add_comm, Nat.add_sub by lia.
Qed.

Lemma no_double_hyphen_prefix s t :
  s `prefix_of` t → no_double_hyphen t → no_double_hyphen s.
Proof.
  intros [k ->] H i Hi Hsi.
  apply (H i); by apply lookup_app_l_Some.
Qed.

(** Inside a run the next unit put out is not a hyphen. *)
Lemma head_hyphenate_in_run s : head (hyphenate_from true s) ≠ Some hyphen.
Proof.
  induction s as [|c s IH]; simpl; [done|].
  destruct (is_separator c) eqn:Hc; [done|]. simpl. intros [= ->].
  done.
Qed.

Lemma no_double_hyphen_hyphenate b s : no_double_hyphen (hyphenate_from b s).
Proof.
  revert b. induction s as [|c s IH]; intros b; simpl; [by intros []|].
  destruct (is_separator c) eqn:Hc.
  - destruct b; [done|]. apply no_double_hyphen_cons. split; [|done].
    intros _. apply head_hyphenate_in_run.
  - apply no_double_hyphen_cons. split; [|done].
    intros ->. done.
Qed.

Lemma elem_of_hyphenate b s c :
  c ∈ hyphenate_from b s → c = hyphen ∨ (c ∈ s ∧ is_separator c = false).
Proof.
  revert b. induction s as [|a s IH]; intros b; simpl; [by intros ?%not_elem_of_nil|].
  destruct (is_separator a) eqn:Ha.
  - destruct b.
    + intros [?|[? ?]]%IH; [by left|right]. split; [by right|done].
    + intros [->|[?|[? ?]]%IH]%elem_of_cons; [by left..|right].
      split; [by right|done].
  - intros [->|[?|[? ?]]%IH]%elem_of_cons; [right|by left|right].
    + split; [by left|done].
    + split; [by right|done].
Qed.

Lemma elem_of_strip_hyphens s c : c ∈ strip_hyphens s → c ∈ s.
Proof. apply elem_of_strip. Qed.

(** A unit that got past [remove_other], is neither a capital letter nor
    a separator, is a small letter or a digit. *)
Lemma kept_unit_is_slug_unit c :
  is_word c || is_space c || (c =? hyphen) = true →
  is_upper c = false →
  is_separator c = false →
  is_slug_unit c = true.
Proof.
  unfold is_word, is_separator, is_slug_unit. intros Hk Hup Hsep.
  apply orb_false_elim in Hsep as [[Hsp Hun]%orb_false_elim Hhy].
  rewrite Hup, Hsp, Hun, Hhy in Hk. rewrite Hhy. simpl in Hk.
  by rewrite !orb_false_r in *.
Qed.

Section slugify.
Variable toLowerCase : jsstring → jsstring.
Hypothesis toLowerCase_lower :
  ∀ s c, c ∈ toLowerCase s → is_upper c = false.

(** C7.  [slugify] produces a URL-safe identifier: whatever the input,
    the result holds only small ASCII letters, digits and hyphens, does
    not begin with a hyphen, does not end with one, and has no two
    hyphens in a row. *)
Theorem slugify_url_safe text :
  let r := slugify toLowerCase text in
  Forall (λ c, is_slug_unit c = true) r
  ∧ head r ≠ Some hyphen
  ∧ last r ≠ Some hyphen
  ∧ no_double_hyphen r.
Proof.
  unfold slugify. split; [|split; [|split]].
  - apply Forall_forall. intros c Hc%elem_of_strip_hyphens.
    apply elem_of_hyphenate in Hc as [->|[Hc Hsep]]; [done|].
    apply list_elem_of_filter in Hc as [Hk Hc%elem_of_trim].
    apply kept_unit_is_slug_unit; [by apply Is_true_true|eauto|done].
  - unfold strip_hyphens. intros Hh.
    eapply head_prefix in Hh; [|apply strip_end_prefix].
    by apply head_strip_start in Hh.
  - unfold strip_hyphens. by intros Hl%last_strip_end.
  - unfold strip_hyphens.
    eapply no_double_hyphen_prefix; [apply strip_end_prefix|].
    eapply no_double_hyphen_suffix; [apply strip_start_suffix|].
    apply no_double_hyphen_hyphenate.
Qed.
End slugify.

Lemma ascii_toLowerCase_lower s c :
  c ∈ ascii_toLowerCase s → is_upper c = false.
Proof.
  unfold ascii_toLowerCase. intros (a & -> & _)%list_elem_of_fmap.
  destruct (is_upper a) eqn:Ha; [|done]. unfold is_upper in *.
  apply andb_true_iff in Ha as [?%N.leb_le _].
  apply andb_false_iff. right. apply N.leb_gt. lia.
Qed.

Lemma slugify_url_safe_witness :
  let r := slugify ascii_toLowerCase (units "  Hello, World_-- 2nd  Post!  ") in
  Forall (λ c, is_slug_unit c = true) r
  ∧ head r ≠ Some hyphen
  ∧ last r ≠ Some hyphen
  ∧ no_double_hyphen r.
Proof.
  apply (slugify_url_safe ascii_toLowerCase). apply ascii_toLowerCase_lower.
Defined.

Example slugify_title :
  slugify ascii_toLowerCase (units "  Hello, World_-- 2nd  Post!  ")
  = units "hello-world-2nd-post".
Proof. by vm_compute. Qed.

Example slugify_symbols_only :
  slugify ascii_toLowerCase (units " -- !? __ ") = [].
Proof. by vm_compute. Qed.

End EditorFacts.

(** ** More on the backend functions *)

Module PostsLaws.
Import Convex Posts ConvexFacts PostsFacts.

Lemma first_query_only db cmp range o d :
  d ∈ docs db → range d = true →
  (∀ x, x ∈ docs db → range x = true → x = d) →
  first (query db cmp range o) = Some d.
Proof.
  intros Hd Hr Honly. unfold first.
  destruct (query db cmp range o) as [|x l] eqn:Hq; simpl.
  - assert (d ∈ query db cmp range o) as Hin by by apply elem_of_query.
    rewrite Hq in Hin. by apply not_elem_of_nil in Hin.
  - assert (x ∈ query db cmp range o) as Hin by (rewrite Hq; left).
    apply elem_of_query in Hin as [? ?]. f_equal. by apply Honly.
Qed.

Lemma slugExists_free db s x :
  (∀ i e, posts db !! i = Some e → slug e.2 ≠ s) → slugExists db s x = false.
Proof.
  intros Hfree. unfold slugExists.
  destruct (first _) as [d|] eqn:Hq; [|done].
  apply first_elem_of, elem_of_query in Hq as [Hd Hs].
  apply elem_of_docs in Hd. apply bool_decide_eq_true in Hs.
  by destruct (Hfree _ _ Hd).
Qed.

(** X1.  [create] with a slug no post has succeeds, hands out the next id, and
    [getById] of that id returns the post as given: [createdAt] and
    [updatedAt] are the time of the call, [publishedAt] is set iff the post
    is published, [tags] default to the empty list and there is no
    author. *)
Theorem create_free_slug env db args :
  (∀ i e, posts db !! i = Some e → slug e.2 ≠ c_slug args) →
  ∃ db',
    create env args db = (db', Ok (next_id db))
    ∧ getById db' (next_id db)
      = Some {| _id := next_id db;
                _creationTime := creation_time env;
                fields :=
                  {| title := c_title args;
                     slug := c_slug args;
                     content := c_content args;
                     excerpt := c_excerpt args;
                     published := c_published args;
                     publishedAt :=
                       if c_published args then Some (Date_now env) else None;
                     createdAt := Date_now env;
                     updatedAt := Date_now env;
                     authorId := None;
                     tags := Some (default [] (c_tags args)) |} |}.
Proof.
  intros Hfree. unfold create. step_mutation.
  rewrite (slugExists_free _ _ _ Hfree). eexists. split; [reflexivity|].
  unfold getById, get. simpl. by rewrite lookup_insert_eq.
Qed.

Lemma create_free_slug_witness :
  ∃ db',
    create (Sample.at_time 3) (Sample.post "third" true) Sample.two_posts
      = (db', Ok 2%N)
    ∧ getById db' 2
      = Some {| _id := 2%N;
                _creationTime := 3;
                fields :=
                  {| title := "Hello";
                     slug := "third";
                     content := "<p>Hello</p>";
                     excerpt := "Hello";
                     published := true;
                     publishedAt := Some 3;
                     createdAt := 3;
                     updatedAt := 3;
                     authorId := None;
                     tags := Some [] |} |}.
Proof.
  apply (create_free_slug (Sample.at_time 3) Sample.two_posts
           (Sample.post "third" true)).
  change (map_Forall (λ _ e, slug e.2 ≠ "third") (posts Sample.two_posts)).
  refine (bool_decide_unpack _ _). by vm_compute.
Defined.

(** X2.  [create] gives the new post an id no post had, and leaves every other
    post as it was. *)
Theorem create_keeps_posts env db args id db' :
  ids_allocated db →
  create env args db = (db', Ok id) →
  posts db !! id = None
  ∧ ∀ j, j ≠ id → posts db' !! j = posts db !! j.
Proof.
  intros Hwf (_ & -> & _ & p & Hp & _)%create_Ok. split.
  - destruct (posts db !! next_id db) eqn:Hn; [|done].
    assert (next_id db < next_id db)%N by (apply Hwf; eauto). lia.
  - intros j Hj. by rewrite Hp, lookup_insert_ne.
Qed.

Lemma create_keeps_posts_witness :
  posts Sample.two_posts !! 2%N = None
  ∧ ∀ j, j ≠ 2%N →
      posts (exec Sample.two_posts
               (Create (Sample.at_time 3) (Sample.post "third" true))) !! j
      = posts Sample.two_posts !! j.
Proof.
  apply (create_keeps_posts (Sample.at_time 3) Sample.two_posts
           (Sample.post "third" true)).
  - apply ids_allocated_reachable. by eexists.
  - by vm_compute.
Defined.

(** X3.  After a successful [create], [getBySlug] of the new slug returns the
    new post if it is published, and nothing if it is a draft. *)
Theorem create_then_getBySlug env db args id db' :
  create env args db = (db', Ok id) →
  getBySlug db' (c_slug args)
  = if c_published args then getById db' id else None.
Proof.
  intros (Hfree & -> & _ & p & Hp & Hs & Hpub & _)%create_Ok.
  set (d := doc (next_id db, (creation_time env, p))).
  assert (getById db' (next_id db) = Some d) as ->.
  { unfold getById, get. by rewrite Hp, lookup_insert_eq. }
  unfold getBySlug.
  rewrite (first_query_only _ _ _ _ d).
  - simpl. by rewrite Hpub.
  - apply elem_of_docs. simpl. by rewrite Hp, lookup_insert_eq.
  - by apply bool_decide_eq_true.
  - intros x Hx%elem_of_docs Hxs%bool_decide_eq_true.
    rewrite Hp, lookup_insert in Hx. case_decide as Hid.
    + destruct x; simpl in *. by simplify_eq.
    + exfalso. apply not_true_iff_false in Hfree. apply Hfree.
      apply slugExists_None_true. eauto.
Qed.

Lemma create_then_getBySlug_witness :
  getBySlug
    (exec Sample.two_posts (Create (Sample.at_time 3) (Sample.post "third" true)))
    "third"
  = getById
      (exec Sample.two_posts (Create (Sample.at_time 3) (Sample.post "third" true)))
      2.
Proof.
  apply (create_then_getBySlug (Sample.at_time 3) Sample.two_posts
           (Sample.post "third" true)).
  by vm_compute.
Defined.

(** X4.  [update] to a slug another post has is rejected: it throws "A post
    with this slug already exists" without having written, whatever else
    the arguments carry. *)
Theorem update_duplicate_slug env db args t p s j e :
  posts db !! u_id args = Some (t, p) →
  u_slug args = Some s →
  s ≠ "" →
  s ≠ slug p →
  posts db !! j = Some e →
  slug e.2 = s →
  update env args db = (db, Throw "A post with this slug already exists")
  ∧ exec db (Update env args) = db.
Proof.
  intros Hid Hs Hne Hold Hj Hes.
  assert (slugExists db s (Some (u_id args)) = true) as Hex.
  { unfold slugExists. destruct (first _) as [d|] eqn:Hq.
    - apply first_elem_of, elem_of_query in Hq as [Hd Hds].
      apply elem_of_docs in Hd. apply bool_decide_eq_true in Hds.
      case_decide as Hdid; [|done]. rewrite Hdid, Hid in Hd. by simplify_eq.
    - destruct e as [t' q].
      apply first_None_query with (d := doc (j, (t', q))) in Hq.
      + by apply bool_decide_eq_false in Hq.
      + by apply elem_of_docs. }
  unfold exec, commit, update, get. step_mutation. rewrite Hid, Hs. simpl.
  unfold truthy. rewrite !bool_decide_eq_false_2 by done. simpl.
  by rewrite Hex.
Qed.

Lemma update_duplicate_slug_witness :
  update (Sample.at_time 3) (Sample.set_slug 1 "first") Sample.two_posts
    = (Sample.two_posts, Throw "A post with this slug already exists")
  ∧ exec Sample.two_posts (Update (Sample.at_time 3) (Sample.set_slug 1 "first"))
    = Sample.two_posts.
Proof.
  apply (update_duplicate_slug (Sample.at_time 3) Sample.two_posts
           (Sample.set_slug 1 "first") 2
           {| title := "Hello"; slug := "second"; content := "<p>Hello</p>";
              excerpt := "Hello"; published := false; publishedAt := None;
              createdAt := 2; updatedAt := 2; authorId := None;
              tags := Some [] |}
           "first" 0%N
           (1, {| title := "Hello"; slug := "first"; content := "<p>Hello</p>";
                  excerpt := "Hello"; published := true; publishedAt := Some 1;
                  createdAt := 1; updatedAt := 1; authorId := None;
                  tags := Some [] |}));
    by vm_compute.
Defined.

(** X5.  A successful [update] returns the id it was given and rewrites that
    post only: the fields given replace the old ones, the fields left out
    stay, [updatedAt] becomes the time of the call, and [createdAt], the
    creation time and the author never change. *)
Theorem update_result env db args id db' :
  update env args db = (db', Ok id) →
  id = u_id args
  ∧ (∃ t p,
      posts db !! id = Some (t, p)
      ∧ getById db' id
        = Some {| _id := id;
                  _creationTime := t;
                  fields :=
                    {| title := default (title p) (u_title args);
                       slug := default (slug p) (u_slug args);
                       content := default (content p) (u_content args);
                       excerpt := default (excerpt p) (u_excerpt args);
                       published := default (published p) (u_published args);
                       publishedAt :=
                         if bool_decide (u_published args = Some true)
                            && negb (published p)
                         then Some (Date_now env) else publishedAt p;
                       createdAt := createdAt p;
                       updatedAt := Date_now env;
                       authorId := authorId p;
                       tags := if u_tags args is Some ts then Some ts
                               else tags p |} |})
  ∧ (∀ j, j ≠ id → posts db' !! j = posts db !! j).
Proof.
  intros (t & p & Hid & -> & _ & Hp & _)%update_Ok.
  split; [done|]. split.
  - exists t, p. split; [done|].
    unfold getById, get. rewrite Hp, lookup_insert_eq. simpl.
    unfold merge_patch. simpl. by destruct (bool_decide _ && _).
  - intros j Hj. by rewrite Hp, lookup_insert_ne.
Qed.

Lemma update_result_witness :
  0%N = u_id (Sample.set_slug 0 "renamed")
  ∧ (∃ t p,
      posts Sample.two_posts !! 0%N = Some (t, p)
      ∧ getById
          (exec Sample.two_posts
             (Update (Sample.at_time 3) (Sample.set_slug 0 "renamed"))) 0
        = Some {| _id := 0%N;
                  _creationTime := t;
                  fields :=
                    {| title := default (title p) None;
                       slug := default (slug p) (Some "renamed");
                       content := default (content p) None;
                       excerpt := default (excerpt p) None;
                       published := default (published p) None;
                       publishedAt :=
                         if bool_decide (None = Some true) && negb (published p)
                         then Some 3 else publishedAt p;
                       createdAt := createdAt p;
                       updatedAt := 3;
                       authorId := authorId p;
                       tags := tags p |} |})
  ∧ (∀ j, j ≠ 0%N →
       posts (exec Sample.two_posts
                (Update (Sample.at_time 3) (Sample.set_slug 0 "renamed"))) !! j
       = posts Sample.two_posts !! j).
Proof.
  apply (update_result (Sample.at_time 3) Sample.two_posts
           (Sample.set_slug 0 "renamed")).
  by vm_compute.
Defined.

(** X6.  [update] of an existing post succeeds whenever the slug, if it is
    changed at all, is one no post has. *)
Theorem update_succeeds env db args t p :
  posts db !! u_id args = Some (t, p) →
  (∀ s, u_slug args = Some s → s ≠ slug p →
     ∀ j e, posts db !! j = Some e → slug e.2 ≠ s) →
  ∃ db', update env args db = (db', Ok (u_id args)).
Proof.
  intros Hid Hfree. unfold update, get. step_mutation. rewrite Hid. simpl.
  destruct (u_slug args) as [s|] eqn:Hs.
  - destruct (decide (s = slug p)) as [->|Hne].
    + rewrite bool_decide_eq_true_2, andb_false_r by done. simpl.
      rewrite Hid. by eexists.
    + destruct (truthy s && _); simpl;
        rewrite ?(slugExists_free db s) by eauto; rewrite Hid; by eexists.
  - simpl. rewrite Hid. by eexists.
Qed.

Lemma update_succeeds_witness :
  ∃ db',
    update (Sample.at_time 3) (Sample.set_slug 0 "renamed") Sample.two_posts
    = (db', Ok (u_id (Sample.set_slug 0 "renamed"))).
Proof.
  apply (update_succeeds (Sample.at_time 3) Sample.two_posts
           (Sample.set_slug 0 "renamed") 1
           {| title := "Hello"; slug := "first"; content := "<p>Hello</p>";
              excerpt := "Hello"; published := true; publishedAt := Some 1;
              createdAt := 1; updatedAt := 1; authorId := None;
              tags := Some [] |}).
  - by vm_compute.
  - intros s [= <-] _.
    change (map_Forall (λ _ e, slug e.2 ≠ "renamed") (posts Sample.two_posts)).
    refine (bool_decide_unpack _ _). by vm_compute.
Defined.

(** X8.  With the slug unique, [getBySlug] of a stored post's slug returns that
    post if it is published and nothing if it is a draft. *)
Theorem getBySlug_stored db i t p :
  unique_slugs db →
  posts db !! i = Some (t, p) →
  getBySlug db (slug p)
  = if published p
    then Some {| _id := i; _creationTime := t; fields := p |}
    else None.
Proof.
  intros Huniq Hi. unfold getBySlug.
  rewrite (first_query_only _ _ _ _ (doc (i, (t, p)))); [done|..].
  - by apply elem_of_docs.
  - by apply bool_decide_eq_true.
  - intros x Hx%elem_of_docs Hxs%bool_decide_eq_true.
    assert (_id x = i) as Hxi by (eapply Huniq; eauto).
    rewrite Hxi, Hi in Hx. destruct x; simpl in *. by simplify_eq.
Qed.

Lemma getBySlug_stored_witness :
  getBySlug Sample.two_posts "second" = None.
Proof.
  apply (getBySlug_stored Sample.two_posts 1 2
           {| title := "Hello"; slug := "second"; content := "<p>Hello</p>";
              excerpt := "Hello"; published := false; publishedAt := None;
              createdAt := 2; updatedAt := 2; authorId := None;
              tags := Some [] |}).
  - apply unique_slugs_run. unfold Sample.two_posts.
    repeat constructor; by intros [].
  - by vm_compute.
Defined.

(** X7.  Removing a post frees its slug: with the slug unique, a [create] with
    the slug of the removed post then succeeds. *)
Theorem remove_frees_slug env db id t p args :
  unique_slugs db →
  posts db !! id = Some (t, p) →
  c_slug args = slug p →
  ∃ db1 db2 id',
    remove id db = (db1, Ok tt)
    ∧ create env args db1 = (db2, Ok id').
Proof.
  intros Huniq Hid Hs. unfold remove, Convex.delete. rewrite Hid.
  eexists. unfold create. step_mutation. rewrite slugExists_free; [by eauto|].
  simpl. intros i e [Hne Hi]%lookup_delete_Some Hse.
  apply Hne. symmetry. eapply Huniq; eauto. simpl. congruence.
Qed.

Lemma remove_frees_slug_witness :
  ∃ db1 db2 id',
    remove 0 Sample.two_posts = (db1, Ok tt)
    ∧ create (Sample.at_time 3) (Sample.post "first" false) db1 = (db2, Ok id').
Proof.
  apply (remove_frees_slug (Sample.at_time 3) Sample.two_posts 0 1
           {| title := "Hello"; slug := "first"; content := "<p>Hello</p>";
              excerpt := "Hello"; published := true; publishedAt := Some 1;
              createdAt := 1; updatedAt := 1; authorId := None;
              tags := Some [] |}).
  - apply unique_slugs_run. unfold Sample.two_posts.
    repeat constructor; by intros [].
  - by vm_compute.
  - done.
Defined.

(** X9.  With the slug unique, [slugExists] with an id to exclude tells whether
    a post other than that one has the slug. *)
Theorem slugExists_excluding db s x :
  unique_slugs db →
  slugExists db s (Some x) = true ↔
  ∃ i e, i ≠ x ∧ posts db !! i = Some e ∧ slug e.2 = s.
Proof.
  intros Huniq. split.
  - unfold slugExists. destruct (first _) as [d|] eqn:Hq; [|done].
    case_decide as Hdx; [done|]. intros _.
    apply first_elem_of, elem_of_query in Hq as [Hd Hs].
    apply elem_of_docs in Hd. apply bool_decide_eq_true in Hs.
    exists (_id d), (_creationTime d, fields d). eauto.
  - intros (i & e & Hne & Hi & Hs).
    destruct (slugExists db s (Some x)) eqn:Hex; [done|].
    destruct Hne. by eapply slugExists_exclude_false.
Qed.

Lemma slugExists_excluding_witness :
  slugExists Sample.two_posts "first" (Some 1%N) = true ↔
  ∃ i e, i ≠ 1%N ∧ posts Sample.two_posts !! i = Some e ∧ slug e.2 = "first".
Proof.
  apply (slugExists_excluding Sample.two_posts "first" 1).
  apply unique_slugs_run. unfold Sample.two_posts.
  repeat constructor; by intros [].
Defined.

(** *** Listings *)


Section listings.
Import Listing.

Lemma lex_antisym c1 c2 d1 d2 :
  d1 = CompOpp c1 → d2 = CompOpp c2 → lex d1 d2 = CompOpp (lex c1 c2).
Proof. intros -> ->. by destruct c1. Qed.

Lemma compare_system_antisym a b :
  compare_system b a = CompOpp (compare_system a b).
Proof.
  apply lex_antisym; [apply Z.compare_antisym|apply N.compare_antisym].
Qed.



Lemma by_created_antisym a b : by_created b a = CompOpp (by_created a b).
Proof.
  apply lex_antisym; [apply Z.compare_antisym|apply compare_system_antisym].
Qed.

Lemma index_le_total cmp o :
  (∀ a b, cmp b a = CompOpp (cmp a b)) → Total (index_le cmp o).
Proof.
  intros Hanti a b. unfold index_le, leb. rewrite (Hanti a b).
  destruct o, (cmp a b); simpl; auto.
Qed.


Lemma published_query db :
  query db by_published (λ d, bool_decide (published (fields d) = true)) desc
  ≡ₚ published_docs db.
Proof.
  unfold query, published_docs. rewrite merge_sort_Permutation.
  erewrite list_filter_iff; [done|].
  intros d. by rewrite Is_true_true, bool_decide_eq_true.
Qed.

Lemma listPublished_inv db limit r :
  listPublished db limit = Ok r →
  ∃ n : Z,
    default (Int 20) limit = Int n ∧ 0 ≤ n
    ∧ r = listed <$> list.take (Z.to_nat n)
            (query db by_published
               (λ d, bool_decide (published (fields d) = true)) desc).
Proof.
  unfold listPublished, Convex.take.
  destruct (default (Int 20) limit) as [n|]; [|done].
  case_decide; [|done]. simpl. intros [= <-]. eauto.
Qed.



(** X13.  [listPublished] returns as many posts as the limit allows, 20 when no
    limit is given: the smaller of the limit and the number of published
    posts. *)
Theorem listPublished_length db limit r :
  listPublished db limit = Ok r →
  ∃ n : Z,
    default (Int 20) limit = Int n ∧ 0 ≤ n
    ∧ length r = min (Z.to_nat n) (length (published_docs db)).
Proof.
  intros (n & Hn & Hpos & ->)%listPublished_inv.
  exists n. split; [done|]. split; [done|].
  by rewrite length_fmap, length_take, published_query.
Qed.

Lemma listPublished_length_witness :
  ∃ n : Z,
    default (Int 20) None = Int n ∧ 0 ≤ n
    ∧ length [listed {| _id := 0%N; _creationTime := 1;
                fields := {| title := "Hello"; slug := "first";
                  content := "<p>Hello</p>"; excerpt := "Hello";
                  published := true; publishedAt := Some 1;
                  createdAt := 1; updatedAt := 1; authorId := None;
                  tags := Some [] |} |}]
      = min (Z.to_nat n) (length (published_docs Sample.two_posts)).
Proof.
  apply (listPublished_length Sample.two_posts None). by vm_compute.
Defined.





(** X16.  When the published posts are no more than the limit, [listPublished]
    returns every one of them. *)
Theorem listPublished_complete db limit r n i t p :
  listPublished db limit = Ok r →
  default (Int 20) limit = Int n →
  (length (published_docs db) ≤ Z.to_nat n)%nat →
  posts db !! i = Some (t, p) →
  published p = true →
  listed {| _id := i; _creationTime := t; fields := p |} ∈ r.
Proof.
  intros (n' & Hn' & _ & ->)%listPublished_inv Hn Hlen Hi Hp.
  rewrite Hn in Hn'. injection Hn' as <-.
  rewrite take_ge by by rewrite published_query.
  apply list_elem_of_fmap_2, elem_of_query. split.
  - by apply elem_of_docs.
  - by apply bool_decide_eq_true.
Qed.

Lemma listPublished_complete_witness :
  listed {| _id := 0%N; _creationTime := 1;
            fields := {| title := "Hello"; slug := "first";
              content := "<p>Hello</p>"; excerpt := "Hello";
              published := true; publishedAt := Some 1;
              createdAt := 1; updatedAt := 1; authorId := None;
              tags := Some [] |} |}
  ∈ [listed {| _id := 0%N; _creationTime := 1;
               fields := {| title := "Hello"; slug := "first";
                 content := "<p>Hello</p>"; excerpt := "Hello";
                 published := true; publishedAt := Some 1;
                 createdAt := 1; updatedAt := 1; authorId := None;
                 tags := Some [] |} |}].
Proof.
  apply (listPublished_complete Sample.two_posts None _ 20).
  - by vm_compute.
  - done.
  - vm_compute. lia.
  - by vm_compute.
  - done.
Defined.

Lemma StronglySorted_sublist {A} (R : relation A) l k :
  l `sublist_of` k → StronglySorted R k → StronglySorted R l.
Proof.
  induction 1 as [|x l k Hlk IH|x l k Hlk IH]; intros Hk; [done|..].
  - apply StronglySorted_cons in Hk as [Hx Hk].
    apply StronglySorted_cons. split; [|by apply IH].
    eapply Forall_forall. intros y Hy. eapply Forall_forall in Hx; [done|].
    by eapply elem_of_sublist.
  - apply StronglySorted_cons in Hk as [_ Hk]. by apply IH.
Qed.

Lemma listAll_inv db opts r :
  listAll db opts = Ok r →
  ∃ n : Z,
    numItems opts = Int n ∧ 0 ≤ n
    ∧ page r
      = list.take (Z.to_nat n)
          (let q := query db by_created (λ _, true) desc in
           if cursor opts is Some c
           then filter (λ d, ¬ index_le by_created desc d c) q else q).
Proof.
  unfold listAll, paginate, Convex.take.
  destruct (numItems opts) as [n|]; [|done].
  case_decide; [|done]. simpl. intros [= <-]. simpl.
  exists n. by destruct (cursor opts).
Qed.

(** X17.  [listAll] lists the posts created last first, whatever the page asked
    for: each post of a page was created no earlier than every post after
    it. *)
Theorem listAll_newest_first db opts r :
  listAll db opts = Ok r →
  StronglySorted (λ x y, createdAt (fields y) ≤ createdAt (fields x)) (page r).
Proof.
  intros (n & _ & _ & ->)%listAll_inv.
  eapply StronglySorted_sublist.
  { etrans; [apply sublist_take|].
    instantiate (1 := query db by_created (λ _, true) desc).
    simpl. destruct (cursor opts); [apply sublist_filter|done]. }
  apply Sorted_StronglySorted.
  { intros x y z. lia. }
  rewrite <-(list_fmap_id (query _ _ _ _)).
  eapply Sorted_fmap; [|apply Sorted_merge_sort].
  - intros a b. unfold index_le, leb, by_created. simpl.
    destruct (createdAt (fields a) ?= createdAt (fields b)) eqn:Hc;
      simpl; try done.
    + apply Z.compare_eq in Hc. lia.
    + apply Z.compare_gt_iff in Hc. lia.
  - apply index_le_total, by_created_antisym.
Qed.

Lemma listAll_newest_first_witness :
  StronglySorted (λ x y, createdAt (fields y) ≤ createdAt (fields x))
    [SampleDocs.second_post; SampleDocs.first_post].
Proof.
  apply (listAll_newest_first Sample.two_posts
           {| numItems := Int 50; cursor := None |}
           {| page := [SampleDocs.second_post; SampleDocs.first_post];
              isDone := true;
              continueCursor := Some SampleDocs.first_post |}).
  by vm_compute.
Defined.

(** X18.  The first page of [listAll] holds every post, drafts included, when
    the page is asked large enough. *)
Theorem listAll_first_page db opts r n i t p :
  listAll db opts = Ok r →
  cursor opts = None →
  numItems opts = Int n →
  (length (docs db) ≤ Z.to_nat n)%nat →
  posts db !! i = Some (t, p) →
  {| _id := i; _creationTime := t; fields := p |} ∈ page r.
Proof.
  intros (n' & Hn' & _ & ->)%listAll_inv Hc Hn Hlen Hi.
  rewrite Hn in Hn'. injection Hn' as <-. rewrite Hc. simpl.
  assert (query db by_created (λ _, true) desc ≡ₚ docs db) as Hq.
  { unfold query. rewrite merge_sort_Permutation.
    clear. induction (docs db) as [|d l IH]; [done|].
    rewrite filter_cons_True by exact I. by apply Permutation_skip. }
  rewrite take_ge by by rewrite Hq.
  rewrite Hq. by apply elem_of_docs.
Qed.

Lemma listAll_first_page_witness :
  SampleDocs.second_post ∈ [SampleDocs.second_post; SampleDocs.first_post].
Proof.
  apply (listAll_first_page Sample.two_posts
           {| numItems := Int 50; cursor := None |}
           {| page := [SampleDocs.second_post; SampleDocs.first_post];
              isDone := true;
              continueCursor := Some SampleDocs.first_post |} 50).
  - by vm_compute.
  - done.
  - done.
  - vm_compute. lia.
  - by vm_compute.
Defined.

End listings.

(** *** Invariants of the reachable tables *)

Section invariants.
Import Listing.

Lemma stamped_exec db c : stamped db → stamped (exec db c).
Proof.
  intros Hst. destruct c as [env args|env args|id]; simpl.
  - destruct (commit_cases db (create env args)) as [(db' & id & Hc & Hdb)|Hdb];
      rewrite Hdb; [|done].
    destruct (decide (slugExists db (c_slug args) None = true)) as [Hex|Hex].
    { unfold create in Hc. revert Hc. step_mutation. by rewrite Hex. }
    apply not_true_is_false in Hex.
    unfold create in Hc. revert Hc. step_mutation. rewrite Hex.
    intros [= <- <-] i t p. simpl. rewrite lookup_insert.
    case_decide; [|by apply Hst]. intros [= <- <-]. simpl.
    split; [|by eexists]. by intros ->.
  - destruct (commit_cases db (update env args)) as [(db' & id & Hu & Hdb)|Hdb];
      rewrite Hdb; [|done].
    apply update_Ok in Hu as (t & p & Hid & _ & _ & Hp & _).
    destruct (Hst _ _ _ Hid) as [Hpub Htags].
    intros i t' p'. rewrite Hp, lookup_insert.
    case_decide; [|by apply Hst]. intros [= <- <-]. split.
    + rewrite publishedAt_patchData. simpl.
      destruct (u_published args) as [[]|]; simpl.
      * intros _. destruct (published p); simpl; [by apply Hpub|by eexists].
      * done.
      * done.
    + simpl. by destruct (u_tags args); [eexists|].
  - destruct (commit_cases db (remove id)) as [(db' & u & Hr & Hdb)|Hdb];
      rewrite Hdb; [|done].
    apply remove_Ok in Hr as [Hp _].
    intros i t p. rewrite Hp. intros [_ Hi]%lookup_delete_Some. by eapply Hst.
Qed.

(** X11.  In every table the mutations can reach, each published post has a
    publication time and each post has a list of tags. *)
Theorem stamped_reachable db : reachable db → stamped db.
Proof.
  intros [calls ->]. unfold run.
  induction calls as [|c calls IH] using rev_ind.
  - intros i t p Hi. simpl in Hi. by rewrite lookup_empty in Hi.
  - rewrite foldl_app. simpl. by apply stamped_exec.
Qed.

Lemma stamped_reachable_witness :
  stamped (run Convex.empty Sample.publish_twice).
Proof. apply (stamped_reachable _). by eexists. Defined.



Lemma removed_post_stays_removed_witness :
  let db' :=
    run (exec Sample.two_posts (Remove 0))
      [Create (Sample.at_time 3) (Sample.post "first" true)] in
  getById db' 0 = None
  ∧ (∀ s d, getBySlug db' s = Some d → _id d ≠ 0%N)
  ∧ (∀ limit r x, listPublished db' limit = Ok r → x ∈ r → l_id x ≠ 0%N)
  ∧ (∀ opts r d, listAll db' opts = Ok r → d ∈ page r → _id d ≠ 0%N).
Proof.
  apply (removed_post_stays_removed Sample.two_posts 0
           (_creationTime SampleDocs.first_post, fields SampleDocs.first_post)).
  - apply ids_allocated_reachable. by eexists.
  - by vm_compute.
Defined.

End invariants.

End PostsLaws.

(** ** The public routes *)

Module BlogFacts.
Import Convex Posts ConvexFacts PostsFacts PostsLaws Blog.

(** X19.  The post page never shows a draft: a post [load] returns is stored,
    published and has the slug asked for. *)
Theorem load_post_published db s post :
  load_post db s = Data post →
  posts db !! _id post = Some (_creationTime post, fields post)
  ∧ slug (fields post) = s
  ∧ published (fields post) = true.
Proof.
  unfold load_post. destruct (getBySlug db s) as [d|] eqn:Hd; [|done].
  intros [= <-]. apply getBySlug_Some in Hd as (Hd & ? & ?).
  by apply elem_of_docs in Hd.
Qed.

Lemma load_post_published_witness :
  posts Sample.two_posts !! _id SampleDocs.first_post
    = Some (_creationTime SampleDocs.first_post, fields SampleDocs.first_post)
  ∧ slug (fields SampleDocs.first_post) = "first"
  ∧ published (fields SampleDocs.first_post) = true.
Proof.
  apply (load_post_published Sample.two_posts "first"). by vm_compute.
Defined.

(** X20.  The post page of a slug that no post has, or that only drafts have, is
    a 404 "Post not found". *)
Theorem load_post_not_found db s :
  (∀ i e, posts db !! i = Some e → slug e.2 = s → published e.2 = false) →
  load_post db s = HttpError 404 "Post not found".
Proof.
  intros Hdraft. unfold load_post.
  destruct (getBySlug db s) as [d|] eqn:Hd; [|done].
  apply getBySlug_Some in Hd as (Hd%elem_of_docs & Hs & Hp).
  specialize (Hdraft _ _ Hd Hs). simpl in Hdraft. congruence.
Qed.

Lemma load_post_not_found_witness :
  load_post Sample.two_posts "second" = HttpError 404 "Post not found".
Proof.
  apply (load_post_not_found Sample.two_posts "second").
  change (map_Forall (λ _ e, slug e.2 = "second" → published e.2 = false)
            (posts Sample.two_posts)).
  refine (bool_decide_unpack _ _). by vm_compute.
Defined.

(** X21.  The index page always loads, with at most 20 posts: as many as there
    are published posts, up to 20. *)
Theorem load_index_loads db :
  ∃ r, load_index db = Ok r
       ∧ length r = min 20 (length (Listing.published_docs db)).
Proof.
  unfold load_index, listPublished. simpl. eexists. split; [done|].
  by rewrite length_fmap, length_take, published_query.
Qed.

End BlogFacts.

(** ** Sessions *)

Module UsersFacts.
Import Users.

(** A session that counts as active at some time counted as active at
    every earlier time: once [isAuthenticated] has turned false on a
    session id for its expiry, it stays false. *)
Theorem isAuthenticated_earlier ctx sid t t' :
  sid ≠ "" →
  t ≤ t' →
  isAuthenticated (at_time ctx t') (Some sid) = true →
  isAuthenticated (at_time ctx t) (Some sid) = true.
Proof.
  intros Hsid Ht. unfold isAuthenticated, Posts.truthy. simpl.
  rewrite bool_decide_eq_false_2 by done. simpl.
  destruct (authSessions ctx !! sid) as [[[e|]]|]; simpl; try done.
  destruct (e =? 0); simpl; [done|].
  destruct (e <? t') eqn:Ht'; [done|]. intros _.
  apply Z.ltb_ge in Ht'. by rewrite (proj2 (Z.ltb_ge e t)) by lia.
Qed.

Lemma isAuthenticated_earlier_witness :
  isAuthenticated (at_time SampleSessions.one_session 50) (Some "s1") = true.
Proof.
  apply (isAuthenticated_earlier SampleSessions.one_session "s1" 50 100);
    [done|lia|by vm_compute].
Defined.

(** X22.  With a session id given, [isAuthenticated] is true exactly when the
    session exists and its expiration time is absent, zero, or not before
    the current time; who calls plays no part. *)
Theorem isAuthenticated_session ctx sid :
  sid ≠ "" →
  isAuthenticated ctx (Some sid) = true ↔
  ∃ session,
    authSessions ctx !! sid = Some session
    ∧ ∀ e, expirationTime session = Some e → e = 0 ∨ Date_now ctx ≤ e.
Proof.
  intros Hsid. unfold isAuthenticated, Posts.truthy.
  rewrite bool_decide_eq_false_2 by done. simpl.
  destruct (authSessions ctx !! sid) as [[[e|]]|]; simpl.
  - destruct (Z.eqb_spec e 0) as [->|Hne]; simpl.
    + split; [|done]. intros _. eexists. split; [done|]. intros ? [= <-]. auto.
    + destruct (Z.ltb_spec e (Date_now ctx)); split; try done.
      * intros (? & [= <-] & He). destruct (He _ eq_refl); lia.
      * intros _. eexists. split; [done|]. intros ? [= <-]. auto.
  - split; [|done]. intros _. eexists. split; [done|]. by intros ? [=].
  - split; [done|]. by intros (? & [=] & _).
Qed.

Lemma isAuthenticated_session_witness :
  isAuthenticated (at_time SampleSessions.one_session 100) (Some "s1") = true ↔
  ∃ session,
    authSessions (at_time SampleSessions.one_session 100) !! "s1" = Some session
    ∧ ∀ e, expirationTime session = Some e
           → e = 0 ∨ Date_now (at_time SampleSessions.one_session 100) ≤ e.
Proof.
  by apply (isAuthenticated_session (at_time SampleSessions.one_session 100) "s1").
Defined.

End UsersFacts.

(** ** The editors' forms *)

Module FormsFacts.
Import Editor EditorFacts Forms.
Open Scope N_scope.

Lemma strip_start_fixed f s :
  (∀ c, head s = Some c → f c = false) → strip_start f s = s.
Proof.
  destruct s as [|a s]; simpl; [done|]. intros Hh. by rewrite (Hh a).
Qed.

Lemma strip_end_fixed f s :
  (∀ c, last s = Some c → f c = false) → strip_end f s = s.
Proof.
  intros Hl. unfold strip_end. rewrite strip_start_fixed.
  - apply reverse_involutive.
  - intros c. rewrite head_reverse. apply Hl.
Qed.

Lemma strip_fixed f s :
  (∀ c, head s = Some c → f c = false) →
  (∀ c, last s = Some c → f c = false) →
  strip_end f (strip_start f s) = s.
Proof. intros Hh Hl. by rewrite strip_start_fixed, strip_end_fixed. Qed.

Lemma head_strip f s c :
  head (strip_end f (strip_start f s)) = Some c → f c = false.
Proof.
  intros Hh. eapply head_prefix in Hh; [|apply strip_end_prefix].
  by apply head_strip_start in Hh.
Qed.

Lemma strip_idemp f s :
  let r := strip_end f (strip_start f s) in
  strip_end f (strip_start f r) = r.
Proof.
  intros r. apply strip_fixed.
  - apply head_strip.
  - apply last_strip_end.
Qed.

Lemma head_elem_of (s : list N) c : head s = Some c → c ∈ s.
Proof. apply head_Some_elem_of. Qed.

Lemma last_elem_of (s : list N) c : last s = Some c → c ∈ s.
Proof. intros (k & ->)%last_Some. apply elem_of_app. right. by left. Qed.

Lemma strip_all_false f s :
  (∀ c, c ∈ s → f c = false) → strip_end f (strip_start f s) = s.
Proof.
  intros Hs. apply strip_fixed; intros c Hc; apply Hs;
    [by apply head_elem_of|by apply last_elem_of].
Qed.

Lemma elem_of_strip_start_keep f s c :
  c ∈ s → f c = false → c ∈ strip_start f s.
Proof.
  induction s as [|a s IH]; simpl; [done|].
  intros Hc Hf. destruct (f a) eqn:Ha; [|done].
  apply elem_of_cons in Hc as [->|Hc]; [congruence|by apply IH].
Qed.

Lemma elem_of_strip_keep f g s c :
  c ∈ s → f c = false → g c = false → c ∈ strip_end f (strip_start g s).
Proof.
  intros Hc Hf Hg. unfold strip_end. apply elem_of_reverse.
  apply elem_of_strip_start_keep; [|done].
  apply elem_of_reverse. by apply elem_of_strip_start_keep.
Qed.

Lemma strip_start_all f s : (∀ c, c ∈ s → f c = true) → strip_start f s = [].
Proof.
  induction s as [|a s IH]; simpl; [done|]. intros Hs.
  rewrite (Hs a) by by left. apply IH. intros c Hc. apply Hs. by right.
Qed.

Lemma slug_unit_not_space c : is_slug_unit c = true → is_space c = false.
Proof.
  unfold is_slug_unit, is_lower, is_digit, is_space, hyphen. intros Hc.
  apply orb_false_intro.
  - apply bool_decide_eq_false. rewrite !elem_of_cons, elem_of_nil.
    intros Hin.
    repeat (apply orb_prop in Hc as [Hc|Hc]);
      [apply andb_prop in Hc as [?%N.leb_le ?%N.leb_le]..
      |apply N.eqb_eq in Hc]; lia.
  - apply andb_false_iff. left. apply N.leb_gt.
    repeat (apply orb_prop in Hc as [Hc|Hc]);
      [apply andb_prop in Hc as [?%N.leb_le ?%N.leb_le]..
      |apply N.eqb_eq in Hc]; lia.
Qed.

Lemma slug_pattern_true s :
  slug_pattern s = true ↔ s ≠ [] ∧ ∀ c, c ∈ s → is_slug_unit c = true.
Proof.
  unfold slug_pattern. rewrite andb_true_iff, negb_true_iff.
  rewrite bool_decide_eq_false, <-Is_true_true, forallb_True, Forall_forall.
  by setoid_rewrite Is_true_true.
Qed.

Lemma slug_pattern_trim s : slug_pattern s = true → trim s = s.
Proof.
  intros [_ Hunits]%slug_pattern_true.
  apply strip_all_false. intros c Hc. by apply slug_unit_not_space, Hunits.
Qed.

Lemma validatePost_slug f : validatePost f = ok → slug_pattern (f_slug f) = true.
Proof.
  unfold validatePost.
  destruct (blank (f_title f)); [done|]. case_bool_decide; [done|].
  destruct (blank (f_slug f)); [done|].
  by destruct (slug_pattern (f_slug f)).
Qed.

(** X23.  A form [validatePost] accepts has a title of at most 200 units and an
    excerpt of at most 500, no blank title, excerpt or content, and a slug
    that is not empty, holds only small letters, digits and hyphens, and
    is what [slug.trim()] sends on. *)
Theorem validatePost_accepted f :
  validatePost f = ok →
  trim (f_title f) ≠ [] ∧ (length (f_title f) ≤ 200)%nat
  ∧ f_slug f ≠ []
  ∧ (∀ c, c ∈ f_slug f → is_slug_unit c = true)
  ∧ trim (f_slug f) = f_slug f
  ∧ trim (f_excerpt f) ≠ [] ∧ (length (f_excerpt f) ≤ 500)%nat
  ∧ trim (f_content f) ≠ [].
Proof.
  intros Hv. pose proof (validatePost_slug f Hv) as Hp. revert Hv.
  unfold validatePost, blank. rewrite Hp. simpl.
  repeat (case_bool_decide; [done|]). intros _.
  pose proof (slug_pattern_trim _ Hp) as Htrim.
  apply slug_pattern_true in Hp as [Hne Hunits].
  repeat split; try done; lia.
Qed.

Lemma validatePost_accepted_witness :
  trim (f_title SampleForms.hello) ≠ []
  ∧ (length (f_title SampleForms.hello) ≤ 200)%nat
  ∧ f_slug SampleForms.hello ≠ []
  ∧ (∀ c, c ∈ f_slug SampleForms.hello → is_slug_unit c = true)
  ∧ trim (f_slug SampleForms.hello) = f_slug SampleForms.hello
  ∧ trim (f_excerpt SampleForms.hello) ≠ []
  ∧ (length (f_excerpt SampleForms.hello) ≤ 500)%nat
  ∧ trim (f_content SampleForms.hello) ≠ [].
Proof. apply (validatePost_accepted SampleForms.hello). by vm_compute. Defined.

(** *** The slug the editors derive from the title *)

Section slugify.
Variable toLowerCase : jsstring → jsstring.
Hypothesis toLowerCase_lower :
  ∀ s c, c ∈ toLowerCase s → is_upper c = false.

Lemma slugify_units text c :
  c ∈ slugify toLowerCase text → is_slug_unit c = true.
Proof.
  unfold slugify. intros Hc%elem_of_strip_hyphens.
  apply elem_of_hyphenate in Hc as [->|[Hc Hsep]]; [done|].
  apply list_elem_of_filter in Hc as [Hk Hc%elem_of_trim].
  apply kept_unit_is_slug_unit; [by apply Is_true_true|eauto|done].
Qed.

(** X24.  A slug [slugify] derives from a title passes the slug check of
    [validatePost], unless it is empty. *)
Theorem slugify_passes_pattern text :
  slugify toLowerCase text ≠ [] →
  slug_pattern (slugify toLowerCase text) = true.
Proof.
  intros Hne. apply slug_pattern_true. split; [done|].
  intros c. apply slugify_units.
Qed.

Lemma alnum_not_separator c :
  is_lower c || is_digit c = true → is_separator c = false.
Proof.
  intros Hc. unfold is_separator.
  rewrite slug_unit_not_space by (unfold is_slug_unit; by rewrite Hc).
  unfold is_lower, is_digit, underscore, hyphen in *. simpl.
  apply orb_false_intro; apply N.eqb_neq;
    (apply orb_prop in Hc as [Hc|Hc];
     apply andb_prop in Hc as [?%N.leb_le ?%N.leb_le]; lia).
Qed.

Lemma elem_of_hyphenate_keep b s c :
  c ∈ s → is_separator c = false → c ∈ hyphenate_from b s.
Proof.
  revert b. induction s as [|a s IH]; intros b; simpl; [done|].
  intros [->|Hc]%elem_of_cons Hsep.
  - rewrite Hsep. by left.
  - destruct (is_separator a), b; try right; by apply IH.
Qed.

Lemma hyphenate_separators b s c :
  (∀ a, a ∈ s → is_separator a = true) → c ∈ hyphenate_from b s → c = hyphen.
Proof.
  intros Hs [->|[Hc Hsep]]%elem_of_hyphenate; [done|].
  rewrite (Hs c Hc) in Hsep. done.
Qed.

(** X25.  [slugify] yields the empty slug exactly for the titles that, put in
    small letters, hold no letter [a-z] and no digit. *)
Theorem slugify_empty text :
  slugify toLowerCase text = [] ↔
  ∀ c, c ∈ toLowerCase text → is_lower c || is_digit c = false.
Proof.
  unfold slugify. split.
  - intros Hnil c Hc. destruct (is_lower c || is_digit c) eqn:Halnum; [|done].
    assert (is_separator c = false) as Hsep by by apply alnum_not_separator.
    assert (c ∈ @nil N) as Hin; [|by apply not_elem_of_nil in Hin].
    rewrite <-Hnil. unfold strip_hyphens, hyphenate, remove_other, trim.
    unfold is_separator in Hsep.
    apply orb_false_elim in Hsep as [[Hsp Hun]%orb_false_elim Hhy].
    apply elem_of_strip_keep; [|done..].
    apply elem_of_hyphenate_keep;
      [|unfold is_separator; by rewrite Hsp, Hun, Hhy].
    apply list_elem_of_filter. split.
    + apply Is_true_true. unfold is_word.
      apply orb_prop in Halnum as [->| ->]; simpl;
        by rewrite ?orb_true_r.
    + by apply elem_of_strip_keep.
  - intros Hnone. unfold strip_hyphens.
    rewrite strip_start_all; [done|].
    intros c Hc. apply N.eqb_eq.
    eapply hyphenate_separators; [|done].
    intros a [Hk Ha%elem_of_trim]%list_elem_of_filter.
    apply Is_true_true in Hk. specialize (Hnone a Ha).
    specialize (toLowerCase_lower _ _ Ha).
    apply orb_false_elim in Hnone as [Hlo Hdi].
    unfold is_separator, is_word in *.
    rewrite toLowerCase_lower, Hlo, Hdi in Hk. simpl in Hk.
    apply orb_prop in Hk as [[Hk|Hk]%orb_prop|Hk];
      rewrite Hk; by rewrite ?orb_true_r.
Qed.

End slugify.

Lemma filter_all {A} (P : A → Prop) `{∀ x, Decision (P x)} (l : list A) :
  (∀ x, x ∈ l → P x) → filter P l = l.
Proof.
  induction l as [|a l IH]; [done|]. intros Hl.
  rewrite filter_cons_True by (apply Hl; by left).
  rewrite IH; [done|]. intros x Hx. apply Hl. by right.
Qed.

Lemma slug_separator_hyphen c :
  is_slug_unit c = true → is_separator c = true → c = hyphen.
Proof.
  intros Hu Hsep. unfold is_separator in Hsep.
  rewrite (slug_unit_not_space c Hu) in Hsep. simpl in Hsep.
  apply orb_prop in Hsep as [Hc|Hc]; apply N.eqb_eq in Hc; [|done].
  subst c. by vm_compute in Hu.
Qed.

Lemma hyphenate_fixed b s :
  (∀ c, c ∈ s → is_slug_unit c = true) →
  no_double_hyphen s →
  (b = true → head s ≠ Some hyphen) →
  hyphenate_from b s = s.
Proof.
  revert b. induction s as [|c s IH]; intros b Hunits Hnd Hb; simpl; [done|].
  apply no_double_hyphen_cons in Hnd as [Hc Hnd].
  assert (∀ a, a ∈ s → is_slug_unit a = true) as Hs
    by (intros a Ha; apply Hunits; by right).
  destruct (is_separator c) eqn:Hsep.
  - assert (c = hyphen) as ->
      by (apply slug_separator_hyphen; [apply Hunits; by left|done]).
    destruct b; [by destruct Hb|]. f_equal. apply IH; auto.
  - f_equal. by apply IH.
Qed.

(** [slugify] leaves a well-formed slug as it is, as long as putting it in
    small letters does: a string of small letters, digits and single
    hyphens, none of them at either end. *)
Lemma slugify_fixed toLowerCase r :
  toLowerCase r = r →
  (∀ c, c ∈ r → is_slug_unit c = true) →
  head r ≠ Some hyphen →
  last r ≠ Some hyphen →
  no_double_hyphen r →
  slugify toLowerCase r = r.
Proof.
  intros Hlow Hunits Hhead Hlast Hnd. unfold slugify. rewrite Hlow.
  assert (trim r = r) as ->.
  { apply strip_all_false. intros c Hc. by apply slug_unit_not_space, Hunits. }
  assert (remove_other r = r) as ->.
  { apply filter_all. intros c Hc%Hunits. apply Is_true_true.
    unfold is_slug_unit in Hc. unfold is_word.
    apply orb_prop in Hc as [[Hc|Hc]%orb_prop|Hc]; rewrite Hc;
      by rewrite ?orb_true_r. }
  unfold hyphenate. rewrite hyphenate_fixed by done.
  apply strip_fixed; intros c Hc; apply N.eqb_neq; congruence.
Qed.

Section idempotent.
Variable toLowerCase : jsstring → jsstring.
Hypothesis toLowerCase_lower :
  ∀ s c, c ∈ toLowerCase s → is_upper c = false.
Hypothesis toLowerCase_fixed :
  ∀ s, (∀ c, c ∈ s → is_slug_unit c = true) → toLowerCase s = s.

(** X26.  [slugify] is idempotent: the slug of a slug is that slug. *)
Theorem slugify_idempotent text :
  slugify toLowerCase (slugify toLowerCase text) = slugify toLowerCase text.
Proof.
  assert (∀ c, c ∈ slugify toLowerCase text → is_slug_unit c = true) as Hunits
    by (intros c; by apply slugify_units).
  apply slugify_fixed; [by apply toLowerCase_fixed|done|..]; unfold slugify.
  - intros Hh%head_strip. done.
  - intros Hl%last_strip_end. done.
  - unfold strip_hyphens.
    eapply no_double_hyphen_prefix; [apply strip_end_prefix|].
    eapply no_double_hyphen_suffix; [apply strip_start_suffix|].
    apply no_double_hyphen_hyphenate.
Qed.

End idempotent.

Lemma ascii_toLowerCase_fixed s :
  (∀ c, c ∈ s → is_slug_unit c = true) → ascii_toLowerCase s = s.
Proof.
  intros Hs. unfold ascii_toLowerCase.
  induction s as [|c s IH]; [done|]. csimpl.
  rewrite IH by (intros a Ha; apply Hs; by right). f_equal.
  assert (is_slug_unit c = true) as Hc by (apply Hs; by left).
  destruct (is_upper c) eqn:Hup; [|done].
  unfold is_slug_unit, is_lower, is_digit, is_upper, hyphen in *.
  apply andb_prop in Hup as [?%N.leb_le ?%N.leb_le].
  repeat (apply orb_prop in Hc as [Hc|Hc]);
    [apply andb_prop in Hc as [?%N.leb_le ?%N.leb_le]..
    |apply N.eqb_eq in Hc]; lia.
Qed.

Lemma slugify_idempotent_witness :
  slugify ascii_toLowerCase (slugify ascii_toLowerCase (units "Hello, World"))
  = slugify ascii_toLowerCase (units "Hello, World").
Proof.
  apply (slugify_idempotent ascii_toLowerCase ascii_toLowerCase_lower
           ascii_toLowerCase_fixed).
Defined.

Lemma slugify_passes_pattern_witness :
  slug_pattern (slugify ascii_toLowerCase (units "Hello, World")) = true.
Proof.
  apply (slugify_passes_pattern ascii_toLowerCase ascii_toLowerCase_lower).
  by vm_compute.
Defined.

Lemma slugify_empty_witness :
  slugify ascii_toLowerCase (units " ?! ") = [] ↔
  ∀ c, c ∈ ascii_toLowerCase (units " ?! ") → is_lower c || is_digit c = false.
Proof.
  apply (slugify_empty ascii_toLowerCase ascii_toLowerCase_lower).
Defined.

(** *** Tags *)

Lemma split_pieces sep s p : p ∈ split sep s → sep ∉ p.
Proof.
  revert p. induction s as [|c s IH]; simpl; intros p.
  - intros ->%list_elem_of_singleton. apply not_elem_of_nil.
  - destruct (N.eqb_spec c sep) as [->|Hne].
    + intros [->|Hp]%elem_of_cons; [apply not_elem_of_nil|by apply IH].
    + destruct (split sep s) as [|piece pieces]; simpl.
      * intros ->%list_elem_of_singleton.
        rewrite elem_of_cons, elem_of_nil. by intros [?|?].
      * intros [->|Hp]%elem_of_cons.
        -- rewrite elem_of_cons. intros [?|?]; [done|].
           by apply (IH piece); [left|].
        -- apply IH. by right.
Qed.

Lemma split_whole sep s : sep ∉ s → split sep s = [s].
Proof.
  induction s as [|c s IH]; simpl; [done|].
  rewrite not_elem_of_cons. intros [Hne Hs].
  rewrite (proj2 (N.eqb_neq c sep)) by done. by rewrite IH.
Qed.

Lemma split_app sep s r : sep ∉ s → split sep (s ++ sep :: r) = s :: split sep r.
Proof.
  induction s as [|c s IH]; simpl.
  - by rewrite N.eqb_refl.
  - rewrite not_elem_of_cons. intros [Hne Hs].
    rewrite (proj2 (N.eqb_neq c sep)) by done. by rewrite IH.
Qed.

Lemma trim_idemp s : trim (trim s) = trim s.
Proof. apply strip_idemp. Qed.

Lemma trim_space s : trim (space :: s) = trim s.
Proof.
  unfold trim.
  change (strip_start is_space (space :: s))
    with (if is_space space then strip_start is_space s else space :: s).
  by replace (is_space space) with true by by vm_compute.
Qed.

(** X27.  Every tag [handleSubmit] sends is non-empty, has no white space at
    either end and no comma in it. *)
Theorem tagArray_clean tags : Forall clean_tag (tagArray tags).
Proof.
  apply Forall_forall. intros t. unfold tagArray.
  intros [Hlen (p & -> & Hp)%list_elem_of_fmap]%list_elem_of_filter.
  split; [|split].
  - intros Hnil. rewrite Hnil in Hlen. simpl in Hlen. lia.
  - apply trim_idemp.
  - intros Hc%elem_of_trim. by apply split_pieces in Hp.
Qed.

Lemma split_join x ts :
  Forall clean_tag (x :: ts) →
  split comma (join [comma; space] (x :: ts)) = x :: (cons space <$> ts).
Proof.
  revert x. induction ts as [|y ts IH]; intros x Hclean.
  - apply Forall_cons in Hclean as [(_ & _ & Hx) _]. by apply split_whole.
  - apply Forall_cons in Hclean as [(_ & _ & Hx) Hclean].
    change (join [comma; space] (x :: y :: ts))
      with (x ++ comma :: space :: join [comma; space] (y :: ts)).
    rewrite split_app by done. f_equal.
    change (split comma (space :: join [comma; space] (y :: ts)))
      with (match split comma (join [comma; space] (y :: ts)) with
            | piece :: pieces => (space :: piece) :: pieces
            | [] => [[space]]
            end).
    by rewrite IH.
Qed.

(** X28.  Round trip of the tags through the edit page: the field the page
    fills from stored tags that are non-empty, trimmed and free of commas
    parses back to those tags. *)
Theorem tagArray_tags_field ts :
  Forall clean_tag ts → tagArray (tags_field (Some ts)) = ts.
Proof.
  intros Hclean. unfold tagArray, tags_field.
  destruct ts as [|x ts]; [done|].
  rewrite split_join by done.
  assert (trim <$> x :: (cons space <$> ts) = x :: ts) as ->.
  { apply Forall_cons in Hclean as [(_ & Hx & _) Hts]. csimpl. rewrite Hx.
    f_equal. induction Hts as [|y ts (_ & Hy & _) _ IH]; [done|].
    csimpl. by rewrite trim_space, Hy, IH. }
  generalize dependent (x :: ts). clear. intros l Hclean.
  induction Hclean as [|y l (Hy & _) _ IH]; [done|].
  rewrite filter_cons_True; [by rewrite IH|].
  destruct y; [done|simpl; lia].
Qed.

Lemma tagArray_tags_field_witness :
  tagArray (tags_field (Some [units "news"; units "web dev"]))
  = [units "news"; units "web dev"].
Proof.
  apply (tagArray_tags_field [units "news"; units "web dev"]).
  apply Forall_cons_2; [|apply Forall_cons_2; [|by apply Forall_nil]];
    (split; [done|split; [by vm_compute|]]);
    refine (bool_decide_unpack _ _); by vm_compute.
Defined.

End FormsFacts.

(** ** The editors against the backend *)

Module EditorLaws.
Import Convex Posts ConvexFacts PostsFacts Editor Forms FormsFacts.

Section submit.
Variable wire : jsstring → string.



Hypothesis wire_empty : ∀ s, wire s = "" → s = [].



End submit.




End EditorLaws.
